(** * Volunteer platform API helper (api-config.js): model and properties

    A shallow embedding of [VolunteerAPI] and [VolunteerScraper].

    - JavaScript values that reach the helper (parsed JSON payloads, the
      [filters] and [options] arguments) are trees of type [JSValue];
    - a [throw] (or a rejected promise seen through [await]) is the [Throw]
      case of [Result];
    - the instance state ([this.cache]) is passed explicitly, the clock and
      the network are inputs of the call;
    - the one place where the code mutates arrays in place
      ([combineResults]) is also given over a store of array cells. *)

From Stdlib Require Import Ascii String ZArith.
From stdpp Require Import gmap strings list pretty.

Set Warnings "-register-all".

Local Open Scope string_scope.
Local Open Scope Z_scope.

(** ** Exceptions and results *)

(** The exceptions this code can meet. *)
Inductive Exn :=
  | TypeError            (* property read on null/undefined, call of a non-function, ... *)
  | SyntaxError          (* JSON parse error, invalid CSS selector *)
  | HttpError (status : Z)  (* new Error(`HTTP error! status: ${response.status}`) *)
  | NetworkError.        (* fetch rejected *)

(** Outcome of an expression that may throw; for an awaited promise,
    [Ok] is fulfilment and [Throw] is rejection. *)
Inductive Result (A : Type) :=
  | Ok (a : A)
  | Throw (e : Exn).
Arguments Ok {A} a.
Arguments Throw {A} e.

Global Instance Result_ret : MRet Result := fun A a => Ok a.
Global Instance Result_bind : MBind Result := fun A B f m =>
  match m with
  | Ok a => f a
  | Throw e => Throw e
  end.

Definition isOk {A} (r : Result A) : bool :=
  match r with Ok _ => true | Throw _ => false end.

(** ** JavaScript values *)

(** JSON trees plus [undefined].  A number is carried as the string that
    Number::toString gives it ("0", "25", "38.88", "1e+21", "NaN"), which
    identifies the number up to the sign of zero.  An object is the list
    of its own properties in the order they are enumerated; [lookupOwn]
    reads the first entry of a name. *)
Inductive JSValue :=
  | JUndef
  | JNull
  | JBool (b : bool)
  | JNum (repr : string)
  | JStr (s : string)
  | JArr (elems : list JSValue)
  | JObj (props : list (string * JSValue)).

Fixpoint lookupOwn (name : string) (props : list (string * JSValue)) : option JSValue :=
  match props with
  | [] => None
  | (k, v) :: rest => if String.eqb k name then Some v else lookupOwn name rest
  end.

(** ToBoolean. *)
Definition truthy (v : JSValue) : bool :=
  match v with
  | JUndef | JNull => false
  | JBool b => b
  | JNum r => negb (String.eqb r "0" || String.eqb r "NaN")
  | JStr s => negb (String.eqb s "")
  | JArr _ | JObj _ => true
  end.

(** [a || b] *)
Definition or_else (a b : JSValue) : JSValue := if truthy a then a else b.

(** ToString, as a template literal or a string conversion applies it.  An
    array is joined with "," (null and undefined elements give the empty
    string).  An ordinary object gives "[object Object]" through the
    inherited toString, unless it has an own property [toString]: a parsed
    JSON value is never callable, the inherited valueOf returns the object
    itself, and the conversion throws a TypeError. *)
Fixpoint ToString (v : JSValue) : Result string :=
  match v with
  | JUndef => Ok "undefined"
  | JNull => Ok "null"
  | JBool b => Ok (if b then "true" else "false")
  | JNum r => Ok r
  | JStr s => Ok s
  | JArr elems =>
      (fix join (l : list JSValue) : Result string :=
         match l with
         | [] => Ok ""
         | x :: rest =>
             match (match x with JUndef | JNull => Ok "" | _ => ToString x end) with
             | Throw e => Throw e
             | Ok s =>
                 match rest with
                 | [] => Ok s
                 | _ :: _ =>
                     match join rest with
                     | Throw e => Throw e
                     | Ok r => Ok (s +:+ "," +:+ r)
                     end
                 end
             end
         end) elems
  | JObj props =>
      match lookupOwn "toString" props with
      | Some _ => Throw TypeError
      | None => Ok "[object Object]"
      end
  end.

(** Property read [v.name] for a name that no built-in prototype defines
    (every name this program reads from a payload or an argument:
    opportunities, title, organization, lat, lon, category, distance,
    headers, contents).  Reading from null or undefined throws; primitives
    and arrays have no such property. *)
Definition getProp (v : JSValue) (name : string) : Result JSValue :=
  match v with
  | JUndef | JNull => Throw TypeError
  | JObj props => Ok (default JUndef (lookupOwn name props))
  | _ => Ok JUndef
  end.

(** Default parameter value: [param = dflt] applies to undefined only. *)
Definition defaultArg (dflt v : JSValue) : JSValue :=
  match v with JUndef => dflt | _ => v end.

(** ** mapCategoryToJustServe *)

(** What a property read on an object literal can give: an own property,
    a member inherited from Object.prototype, or undefined. *)
Inductive Member :=
  | Own (v : JSValue)
  | Inherited (name : string)
  | Missing.

(** Names that every ordinary object inherits from Object.prototype. *)
Definition objectPrototypeNames : list string :=
  [ "constructor"; "hasOwnProperty"; "isPrototypeOf"; "propertyIsEnumerable";
    "toLocaleString"; "toString"; "valueOf"; "__proto__";
    "__defineGetter__"; "__defineSetter__"; "__lookupGetter__"; "__lookupSetter__" ].

Definition inb (s : string) (l : list string) : bool := existsb (String.eqb s) l.

(** [obj[name]] on an object literal: own properties first, then the
    prototype. *)
Definition getMember (props : list (string * JSValue)) (name : string) : Member :=
  match lookupOwn name props with
  | Some v => Own v
  | None => if inb name objectPrototypeNames then Inherited name else Missing
  end.

(** The [mapping] literal of mapCategoryToJustServe. *)
Definition mapping : list (string * JSValue) :=
  [ ("education", JNum "1"); ("environment", JNum "2"); ("health", JNum "3");
    ("community", JNum "4"); ("seniors", JNum "5"); ("animals", JNum "6");
    ("disaster", JNum "7"); ("homeless", JNum "8"); ("youth", JNum "9");
    ("arts", JNum "10") ].

(** [return mapping[category] || ""].  Inherited members are functions or
    objects, hence truthy, and are returned as they are. *)
Definition mapCategoryToJustServe (category : string) : Member :=
  match getMember mapping category with
  | Own v => Own (or_else v (JStr ""))
  | Inherited n => Inherited n
  | Missing => Own (JStr "")
  end.

(** The recognized category labels with their catalog ids. *)
Definition justServeCatalog : list (string * Z) :=
  [ ("education", 1); ("environment", 2); ("health", 3); ("community", 4);
    ("seniors", 5); ("animals", 6); ("disaster", 7); ("homeless", 8);
    ("youth", 9); ("arts", 10) ].

(** ** JSON.stringify and the cache key *)

Definition hexDigit (n : N) : ascii :=
  match n with
  | 0 => "0" | 1 => "1" | 2 => "2" | 3 => "3" | 4 => "4" | 5 => "5" | 6 => "6"
  | 7 => "7" | 8 => "8" | 9 => "9" | 10 => "a" | 11 => "b" | 12 => "c"
  | 13 => "d" | 14 => "e" | _ => "f"
  end%N%char.

Definition dquote : string := String (ascii_of_N 34) "".

(** One character of QuoteJSONString. *)
Definition quoteChar (c : ascii) : string :=
  let n := N_of_ascii c in
  if (n =? 34)%N then String "\" (String c "")
  else if (n =? 92)%N then "\\"
  else if (n =? 8)%N then "\b"
  else if (n =? 12)%N then "\f"
  else if (n =? 10)%N then "\n"
  else if (n =? 13)%N then "\r"
  else if (n =? 9)%N then "\t"
  else if (n <? 32)%N then
    "\u00" +:+ String (hexDigit (n / 16)) (String (hexDigit (n mod 16)) "")
  else String c "".

Fixpoint quoteBody (s : string) : string :=
  match s with
  | EmptyString => ""
  | String c rest => quoteChar c +:+ quoteBody rest
  end.

Definition QuoteJSONString (s : string) : string := dquote +:+ quoteBody s +:+ dquote.

Definition finiteRepr (r : string) : bool :=
  negb (inb r ["NaN"; "Infinity"; "-Infinity"]).

(** JSON.stringify; [None] is the result undefined.  A property whose value
    serializes to undefined is left out of its object; such an element of
    an array is written null. *)
Fixpoint JSON_stringify (v : JSValue) : option string :=
  match v with
  | JUndef => None
  | JNull => Some "null"
  | JBool b => Some (if b then "true" else "false")
  | JNum r => Some (if finiteRepr r then r else "null")
  | JStr s => Some (QuoteJSONString s)
  | JArr elems =>
      Some ("[" +:+ String.concat ","
                     (map (fun x => default "null" (JSON_stringify x)) elems) +:+ "]")
  | JObj props =>
      Some ("{" +:+ String.concat ","
                     ((fix members (l : list (string * JSValue)) : list string :=
                         match l with
                         | [] => []
                         | (k, x) :: rest =>
                             match JSON_stringify x with
                             | Some s => (QuoteJSONString k +:+ ":" +:+ s) :: members rest
                             | None => members rest
                             end
                         end) props) +:+ "}")
  end.

(** [url + JSON.stringify(options)] *)
Definition cacheKey (url : string) (options : JSValue) : string :=
  url +:+ default "undefined" (JSON_stringify options).

(** ** makeAPICall *)

Record CacheEntry := { data : JSValue; timestamp : Z }.

(** The instance: [this.cache] and [this.cacheTimeout]. *)
Record VolunteerAPI := { cache : gmap string CacheEntry; cacheTimeout : Z }.

Definition constructor : VolunteerAPI :=
  {| cache := ∅; cacheTimeout := 10 * 60 * 1000 |}.

(** What [fetch] resolves to: [response.ok], [response.status] and how
    [response.json()] settles. *)
Record Response := { ok : bool; status : Z; json : Result JSValue }.

(** What the outside world supplies to one call: the reading of
    [Date.now()] at the cache check, how [fetch] settles, and the reading
    of [Date.now()] when the entry is stored. *)
Record Env := { nowCheck : Z; fetched : Result Response; nowStore : Z }.

(** A network request issued through [fetch]: the URL and the options the
    init object is built from. *)
Record Request := { reqUrl : string; reqOptions : JSValue }.

Record CallOutcome :=
  { apiAfter : VolunteerAPI; requests : list Request; settled : Result JSValue }.

(** The cached payload [makeAPICall] returns without a network call. *)
Definition cacheHit (api : VolunteerAPI) (key : string) (now : Z) : option JSValue :=
  match cache api !! key with
  | Some cached =>
      if now - timestamp cached <? cacheTimeout api then Some (data cached) else None
  | None => None
  end.

Definition cacheSet (api : VolunteerAPI) (key : string) (e : CacheEntry) : VolunteerAPI :=
  {| cache := <[key := e]> (cache api); cacheTimeout := cacheTimeout api |}.

Definition makeAPICall (api : VolunteerAPI) (url : string) (options : JSValue)
    (env : Env) : CallOutcome :=
  let options := defaultArg (JObj []) options in
  let cacheKey := cacheKey url options in
  match cacheHit api cacheKey (nowCheck env) with
  | Some d => {| apiAfter := api; requests := []; settled := Ok d |}
  | None =>
      (* try { fetch(url, { method, headers: {..., ...options.headers}, ...options }) *)
      match getProp options "headers" with
      | Throw e => {| apiAfter := api; requests := []; settled := Throw e |}
      | Ok _ =>
          let sent := [ {| reqUrl := url; reqOptions := options |} ] in
          match fetched env with
          | Throw e => {| apiAfter := api; requests := sent; settled := Throw e |}
          | Ok response =>
              if negb (ok response) then
                {| apiAfter := api; requests := sent;
                   settled := Throw (HttpError (status response)) |}
              else
                match json response with
                | Throw e => {| apiAfter := api; requests := sent; settled := Throw e |}
                | Ok d =>
                    {| apiAfter :=
                         cacheSet api cacheKey {| data := d; timestamp := nowStore env |};
                       requests := sent; settled := Ok d |}
                end
          end
      end
  end.

(** ** Query strings *)

Definition isDigit (c : ascii) : bool :=
  let n := N_of_ascii c in ((48 <=? n) && (n <=? 57))%N.

Definition isAlpha (c : ascii) : bool :=
  let n := N_of_ascii c in
  (((65 <=? n) && (n <=? 90)) || ((97 <=? n) && (n <=? 122)))%N.

Definition hexUpper (n : N) : ascii :=
  match n with
  | 0 => "0" | 1 => "1" | 2 => "2" | 3 => "3" | 4 => "4" | 5 => "5" | 6 => "6"
  | 7 => "7" | 8 => "8" | 9 => "9" | 10 => "A" | 11 => "B" | 12 => "C"
  | 13 => "D" | 14 => "E" | _ => "F"
  end%N%char.

Definition percentByte (c : ascii) : string :=
  let n := N_of_ascii c in
  String "%" (String (hexUpper (n / 16)) (String (hexUpper (n mod 16)) "")).

(** Percent-encoding of every byte outside the set [keep]. *)
Fixpoint percentEncode (keep : ascii -> bool) (spacePlus : bool) (s : string) : string :=
  match s with
  | EmptyString => ""
  | String c rest =>
      (if keep c then String c ""
       else if spacePlus && (N_of_ascii c =? 32)%N then "+"
       else percentByte c) +:+ percentEncode keep spacePlus rest
  end.

Definition inChars (c : ascii) (set : string) : bool :=
  existsb (fun d => (N_of_ascii c =? N_of_ascii d)%N) (list_ascii_of_string set).

(** The application/x-www-form-urlencoded byte serializer. *)
Definition formEncode : string -> string :=
  percentEncode (fun c => isDigit c || isAlpha c || inChars c "*-._") true.

Definition encodeURIComponent : string -> string :=
  percentEncode (fun c => isDigit c || isAlpha c || inChars c "-_.!~*'()") false.

(** Writing a property of an object under construction: an existing name
    keeps its place and takes the new value. *)
Fixpoint setProp (props : list (string * JSValue)) (k : string) (v : JSValue)
    : list (string * JSValue) :=
  match props with
  | [] => [(k, v)]
  | (k', v') :: rest =>
      if String.eqb k' k then (k, v) :: rest else (k', v') :: setProp rest k v
  end.

Fixpoint indexed (i : nat) (l : list JSValue) : list (string * JSValue) :=
  match l with
  | [] => []
  | x :: rest => (pretty i, x) :: indexed (S i) rest
  end.

(** The own enumerable properties that [...v] copies. *)
Definition spread (v : JSValue) : list (string * JSValue) :=
  match v with
  | JObj props => props
  | JArr elems => indexed 0 elems
  | JStr s => indexed 0 (map (fun c => JStr (String c "")) (list_ascii_of_string s))
  | _ => []
  end.

(** An object literal [{ k1: v1, ..., ...rest }].  (Names that are array
    indices, which an engine enumerates before the others, are kept in
    the order written; that order only shows in the query string.) *)
Definition objectLiteral (fields rest : list (string * JSValue)) : list (string * JSValue) :=
  fold_left (fun acc kv => setProp acc kv.1 kv.2) (fields ++ rest)%list [].

(** [new URLSearchParams(record)]: every value goes through ToString. *)
Fixpoint URLSearchParams (props : list (string * JSValue)) : Result (list (string * string)) :=
  match props with
  | [] => Ok []
  | (k, v) :: rest =>
      s ← ToString v;
      more ← URLSearchParams rest;
      mret ((k, s) :: more)
  end.

(** [`${params}`] *)
Definition serializeParams (params : list (string * string)) : string :=
  String.concat "&" (map (fun kv => formEncode kv.1 +:+ "=" +:+ formEncode kv.2) params).

(** ** extractZipCode *)

Definition isWordChar (c : ascii) : bool :=
  isDigit c || isAlpha c || (N_of_ascii c =? 95)%N.

(** [n] digits at the head of [s], and what follows them. *)
Fixpoint takeDigits (n : nat) (s : string) : option (string * string) :=
  match n with
  | O => Some ("", s)
  | S n' =>
      match s with
      | String c rest =>
          if isDigit c then
            match takeDigits n' rest with
            | Some (d, after) => Some (String c d, after)
            | None => None
            end
          else None
      | EmptyString => None
      end
  end.

Definition startsWithWordChar (s : string) : bool :=
  match s with
  | String c _ => isWordChar c
  | EmptyString => false
  end.

(** Leftmost match of /\b\d{5}\b/; [prevWord] tells whether the character
    before the current position is a word character. *)
Fixpoint zipMatch (prevWord : bool) (s : string) : option string :=
  match s with
  | EmptyString => None
  | String c rest =>
      let here :=
        if prevWord then None
        else match takeDigits 5 s with
             | Some (d, after) => if startsWithWordChar after then None else Some d
             | None => None
             end in
      match here with
      | Some d => Some d
      | None => zipMatch (isWordChar c) rest
      end
  end.

Definition extractZipCode (location : string) : string :=
  match zipMatch false location with
  | Some z => z
  | None => "22201"
  end.

(** ** Configuration *)

(** The environment variables API_CONFIG reads; [None] is an unset
    variable (the value undefined). *)
Record ProcessEnv :=
  { VOLUNTEER_MATCH_API_KEY : option string;
    JUSTSERVE_API_KEY : option string;
    UNITED_WAY_API_KEY : option string }.

Definition volunteerMatch_baseUrl : string := "https://api.volunteermatch.org/search".
Definition justServe_baseUrl : string := "https://www.justserve.org/api".
Definition unitedWay_baseUrl : string := "https://api.unitedway.org".
Definition nominatim : string := "https://nominatim.openstreetmap.org/search".

Definition envValue (k : option string) : JSValue :=
  match k with Some s => JStr s | None => JUndef end.

(** [`Bearer ${key}`] *)
Definition bearer (k : option string) : JSValue :=
  JStr ("Bearer " +:+ default "undefined" k).

(** ** Fallback data and the per-source searches *)

(** The one element of [fallbackOpportunities]. *)
Definition fallbackOpportunity (category : JSValue) (location : string) : JSValue :=
  JObj [ ("id", JStr "fallback-1");
         ("title", JStr "Community Cleanup Event");
         ("organization", JStr "Local Environmental Group");
         ("category", or_else category (JStr "environment"));
         ("description", JStr "Help clean up local parks and waterways.");
         ("date", JStr "This Weekend");
         ("time", JStr "9:00 AM - 1:00 PM");
         ("location", JStr location);
         ("skills", JStr "None required");
         ("contact", JStr "info@localenv.org") ].

Definition getFallbackData (location : string) (filters : JSValue) : Result JSValue :=
  category ← getProp filters "category";
  mret (JObj [("opportunities", JArr [fallbackOpportunity category location])]).

(** How [this.makeAPICall(url, options)] settles, as seen by the caller
    that awaits it. *)
Definition Net := string -> JSValue -> Result JSValue.

Definition searchVolunteerMatch (penv : ProcessEnv) (net : Net)
    (location : string) (filters : JSValue) : Result JSValue :=
  let filters := defaultArg (JObj []) filters in
  distance ← getProp filters "distance";
  category ← getProp filters "category";
  params ← URLSearchParams (objectLiteral
     [ ("location", JStr location);
       ("radius", or_else distance (JNum "25"));
       ("category", or_else category (JStr ""));
       ("resultsPerPage", JNum "20") ] (spread filters));
  let url := volunteerMatch_baseUrl +:+ "?" +:+ serializeParams params in
  match net url (JObj [("headers",
           JObj [("Authorization", bearer (VOLUNTEER_MATCH_API_KEY penv))])]) with
  | Ok d => Ok d
  | Throw _ => getFallbackData location filters
  end.

(** The text of an inherited member when it is converted to a string (as
    V8 prints built-in functions; [__proto__] reads as Object.prototype
    itself). *)
Definition inheritedText (n : string) : string :=
  if String.eqb n "__proto__" then "[object Object]"
  else if String.eqb n "constructor" then "function Object() { [native code] }"
  else "function " +:+ n +:+ "() { [native code] }".

Definition memberToString (m : Member) : Result string :=
  match m with
  | Own v => ToString v
  | Inherited n => Ok (inheritedText n)
  | Missing => Ok "undefined"
  end.

Definition searchJustServe (penv : ProcessEnv) (net : Net)
    (location : string) (filters : JSValue) : Result JSValue :=
  let filters := defaultArg (JObj []) filters in
  let zipCode := extractZipCode location in
  distance ← getProp filters "distance";
  category ← getProp filters "category";
  (* mapping[category] converts the category to a property key *)
  categoryKey ← ToString category;
  categoryId ← memberToString (mapCategoryToJustServe categoryKey);
  params ← URLSearchParams (objectLiteral
     [ ("zipCode", JStr zipCode);
       ("miles", or_else distance (JNum "25"));
       ("categoryId", JStr categoryId) ] (spread filters));
  let url := justServe_baseUrl +:+ "/opportunities?" +:+ serializeParams params in
  match net url (JObj [("headers",
           JObj [("X-API-Key", envValue (JUSTSERVE_API_KEY penv))])]) with
  | Ok d => Ok d
  | Throw _ => getFallbackData location filters
  end.

Definition searchUnitedWay (penv : ProcessEnv) (net : Net)
    (location : string) (filters : JSValue) : Result JSValue :=
  let filters := defaultArg (JObj []) filters in
  distance ← getProp filters "distance";
  category ← getProp filters "category";
  params ← URLSearchParams (objectLiteral
     [ ("location", JStr location);
       ("radius", or_else distance (JNum "25"));
       ("cause", or_else category (JStr "")) ] (spread filters));
  let url := unitedWay_baseUrl +:+ "/volunteer-opportunities?" +:+ serializeParams params in
  match net url (JObj [("headers",
           JObj [("Authorization", bearer (UNITED_WAY_API_KEY penv))])]) with
  | Ok d => Ok d
  | Throw _ => getFallbackData location filters
  end.

(** ** combineResults and searchAllSources *)

(** [`${opp.title}-${opp.organization}`] *)
Definition oppKey (opp : JSValue) : Result string :=
  title ← getProp opp "title";
  t ← ToString title;
  organization ← getProp opp "organization";
  o ← ToString organization;
  mret (t +:+ "-" +:+ o).

(** The state of the two loops: the set [seen] and the array [combined]. *)
Definition Acc : Type := gset string * list JSValue.

(** [result.opportunities.forEach((opp) => { ... })] *)
Fixpoint forEachOpp (opps : list JSValue) (acc : Acc) : Result Acc :=
  match opps with
  | [] => Ok acc
  | opp :: rest =>
      key ← oppKey opp;
      if decide (key ∈ acc.1) then forEachOpp rest acc
      else forEachOpp rest ({[key]} ∪ acc.1, (acc.2 ++ [opp])%list)
  end.

(** [apiResults.forEach((result) => { if (result.opportunities) ... })].
    A truthy [opportunities] that is not an array has no callable
    [forEach]. *)
Fixpoint forEachResult (apiResults : list JSValue) (acc : Acc) : Result Acc :=
  match apiResults with
  | [] => Ok acc
  | result :: rest =>
      opportunities ← getProp result "opportunities";
      if truthy opportunities then
        match opportunities with
        | JArr opps => acc' ← forEachOpp opps acc; forEachResult rest acc'
        | _ => Throw TypeError
        end
      else forEachResult rest acc
  end.

Definition combineResults (apiResults : list JSValue) : Result JSValue :=
  acc ← forEachResult apiResults (∅, []);
  mret (JObj [("opportunities", JArr acc.2)]).

(** The values of the fulfilled entries of [Promise.allSettled]. *)
Definition fulfilledValues (settled : list (Result JSValue)) : list JSValue :=
  omap (fun r => match r with Ok v => Some v | Throw _ => None end) settled.

Definition searchAllSources (penv : ProcessEnv) (net : Net)
    (location : string) (filters : JSValue) : Result JSValue :=
  let filters := defaultArg (JObj []) filters in
  let promises :=
    [ searchVolunteerMatch penv net location filters;
      searchJustServe penv net location filters;
      searchUnitedWay penv net location filters ] in
  let successfulResults := fulfilledValues promises in
  match combineResults successfulResults with
  | Ok r => Ok r
  | Throw _ => getFallbackData location filters
  end.

(** ** parseFloat *)

(** A Number produced by parseFloat: NaN, or the value of the decimal
    literal that was recognised (rounded to a double by the engine; the
    rounding is not modelled, the literal stands for the value). *)
Inductive JSFloat :=
  | NaN
  | Decimal (literal : string).

(** ASCII members of WhiteSpace and LineTerminator. *)
Definition isWhiteSpace (c : ascii) : bool :=
  let n := N_of_ascii c in (((9 <=? n) && (n <=? 13)) || (n =? 32))%N.

Fixpoint trimStart (s : string) : string :=
  match s with
  | String c rest => if isWhiteSpace c then trimStart rest else s
  | EmptyString => ""
  end.

(** The digits at the head of [s], and what follows them. *)
Fixpoint spanDigits (s : string) : string * string :=
  match s with
  | String c rest =>
      if isDigit c then let '(d, after) := spanDigits rest in (String c d, after)
      else ("", s)
  | EmptyString => ("", "")
  end.

Definition isPrefix (p s : string) : bool := String.prefix p s.

(** ExponentPart at the head of [s], when there is one. *)
Definition scanExponent (s : string) : string :=
  match s with
  | String e rest =>
      if inChars e "eE" then
        let '(sign, rest') :=
          match rest with
          | String c r => if inChars c "+-" then (String c "", r) else ("", rest)
          | EmptyString => ("", rest)
          end in
        let '(d, _) := spanDigits rest' in
        if String.eqb d "" then "" else String e (sign +:+ d)
      else ""
  | EmptyString => ""
  end.

(** The longest prefix of [s] that is a StrUnsignedDecimalLiteral. *)
Definition scanUnsigned (s : string) : option string :=
  if isPrefix "Infinity" s then Some "Infinity"
  else
    let '(int, after) := spanDigits s in
    match after with
    | String "." rest =>
        let '(frac, after') := spanDigits rest in
        if String.eqb int "" && String.eqb frac "" then None
        else Some (int +:+ "." +:+ frac +:+ scanExponent after')
    | _ =>
        if String.eqb int "" then None else Some (int +:+ scanExponent after)
    end.

(** parseFloat on a string. *)
Definition parseFloatString (s : string) : JSFloat :=
  let s := trimStart s in
  let '(sign, body) :=
    match s with
    | String c r => if inChars c "+-" then (String c "", r) else ("", s)
    | EmptyString => ("", s)
    end in
  match scanUnsigned body with
  | Some lit => Decimal (sign +:+ lit)
  | None => NaN
  end.

(** [parseFloat(v)]: the argument is converted to a string first. *)
Definition parseFloat (v : JSValue) : Result JSFloat :=
  s ← ToString v;
  mret (parseFloatString s).

(** ** geocodeLocation *)

Record GeoPoint := { lat : JSFloat; lng : JSFloat }.

(** [result[0]] *)
Definition firstElement (result : JSValue) : Result JSValue :=
  match result with
  | JUndef | JNull => Throw TypeError
  | JArr elems => Ok (default JUndef (head elems))
  | JStr (String c _) => Ok (JStr (String c ""))
  | JObj props => Ok (default JUndef (lookupOwn "0" props))
  | _ => Ok JUndef
  end.

(** A Number that is greater than zero, from its rendering. *)
Definition positiveRepr (r : string) : bool :=
  negb (String.eqb r "0" || String.eqb r "NaN" || isPrefix "-" r).

Section Geocoding.

(** Whether the Number a string converts to (StringToNumber, with its
    rounding) is greater than zero. *)
Variable stringGtZero : string -> bool.

(** [v > 0] *)
Definition gtZero (v : JSValue) : Result bool :=
  match v with
  | JUndef | JNull => Ok false
  | JBool b => Ok b
  | JNum r => Ok (positiveRepr r)
  | JStr s => Ok (stringGtZero s)
  | JArr _ => s ← ToString v; mret (stringGtZero s)
  | JObj _ => _ ← ToString v; mret false
  end.

(** [result.length > 0] for a truthy [result]. *)
Definition lengthGtZero (result : JSValue) : Result bool :=
  match result with
  | JArr elems => Ok (negb (Nat.eqb (length elems) 0))
  | JStr s => Ok (negb (Nat.eqb (String.length s) 0))
  | JObj props => gtZero (default JUndef (lookupOwn "length" props))
  | _ => Ok false
  end.

(** The body of the [try] block once [makeAPICall] has returned
    [result]; [None] is falling out of the [if]. *)
Definition geocodeTry (result : JSValue) : Result (option GeoPoint) :=
  if truthy result then
    positive ← lengthGtZero result;
    if positive : bool then
      first ← firstElement result;
      latField ← getProp first "lat";
      la ← parseFloat latField;
      first' ← firstElement result;
      lonField ← getProp first' "lon";
      lo ← parseFloat lonField;
      mret (Some {| lat := la; lng := lo |})
    else mret None
  else mret None.

(** [None] is the value null. *)
Definition geocodeLocation (net : Net) (address : string) : Result (option GeoPoint) :=
  params ← URLSearchParams (objectLiteral
     [ ("q", JStr address); ("format", JStr "json"); ("limit", JNum "1") ] []);
  let url := nominatim +:+ "?" +:+ serializeParams params in
  match (result ← net url JUndef; geocodeTry result) with
  | Ok (Some point) => Ok (Some point)
  | Ok None => Ok None
  | Throw _ => Ok None
  end.

End Geocoding.

(** ** VolunteerScraper *)

Fixpoint trimEnd (s : string) : string :=
  match s with
  | EmptyString => ""
  | String c rest =>
      let r := trimEnd rest in
      if isWhiteSpace c && String.eqb r "" then "" else String c r
  end.

(** [s.trim()] *)
Definition trim (s : string) : string := trimEnd (trimStart s).

Definition proxyUrl : string := "https://api.allorigins.win/get?url=".

(** The [selectors] argument; [None] is a selector left undefined. *)
Record Selectors :=
  { sel_container : option string;
    sel_title : option string;
    sel_organization : option string;
    sel_description : option string;
    sel_date : option string;
    sel_location : option string;
    sel_link : option string }.

(** The record [scrapeSite] builds for one container element. *)
Record Scraped :=
  { opp_id : string;
    opp_title : string;
    opp_organization : string;
    opp_description : string;
    opp_date : string;
    opp_location : string;
    opp_link : string }.

Section Scraper.

(** The document object model, as far as the scraper uses it.  A
    selector that is not valid CSS makes the query throw; so does a URL
    that cannot be resolved. *)
Variables Document Element : Type.
Variable parseFromString : string -> Document.
Variable querySelectorAll : Document -> string -> Result (list Element).
Variable querySelector : Element -> string -> Result (option Element).
Variable textContent : Element -> string.
Variable getAttribute : Element -> string -> option string.
Variable resolveURL : string -> string -> Result string.

(** [!selector] *)
Definition noSelector (selector : option string) : bool :=
  match selector with
  | None => true
  | Some s => String.eqb s ""
  end.

Definition extractText (element : Element) (selector : option string) : Result string :=
  if noSelector selector then Ok ""
  else
    target ← querySelector element (default "undefined" selector);
    mret (match target with
          | Some t => trim (textContent t)
          | None => ""
          end).

Definition extractLink (element : Element) (selector : option string)
    (baseUrl : string) : Result string :=
  if noSelector selector then Ok ""
  else
    target ← querySelector element (default "undefined" selector);
    match target with
    | None => Ok ""
    | Some t =>
        match getAttribute t "href" with
        | None => Ok ""
        | Some href =>
            if String.eqb href "" then Ok ""
            else if isPrefix "http" href then Ok href
            else resolveURL href baseUrl
        end
    end.

(** The object literal built for one container element; [now] is the
    reading of [Date.now()] at that moment. *)
Definition buildOpportunity (now : Z) (url : string) (selectors : Selectors)
    (element : Element) (index : nat) : Result Scraped :=
  let id := "scraped-" +:+ pretty now +:+ "-" +:+ pretty index in
  title ← extractText element (sel_title selectors);
  organization ← extractText element (sel_organization selectors);
  description ← extractText element (sel_description selectors);
  date ← extractText element (sel_date selectors);
  location ← extractText element (sel_location selectors);
  link ← extractLink element (sel_link selectors) url;
  mret {| opp_id := id; opp_title := title; opp_organization := organization;
          opp_description := description; opp_date := date;
          opp_location := location; opp_link := link |}.

(** [if (opportunity.title)] *)
Definition hasTitle (opportunity : Scraped) : bool :=
  negb (String.eqb (opp_title opportunity) "").

(** The callback of [opportunityElements.forEach], from element number
    [index] on; [now i] is the reading of [Date.now()] while element
    [i] is handled. *)
Fixpoint forEachElement (now : nat -> Z) (url : string) (selectors : Selectors)
    (elements : list Element) (index : nat) (opportunities : list Scraped)
    : Result (list Scraped) :=
  match elements with
  | [] => Ok opportunities
  | element :: rest =>
      opportunity ← buildOpportunity (now index) url selectors element index;
      forEachElement now url selectors rest (S index)
        (if hasTitle opportunity then (opportunities ++ [opportunity])%list
         else opportunities)
  end.

(** The first half of the [try] block: from the fetch to
    [opportunityElements]; [fetchPage u] is how [fetch(u)] settles. *)
Definition loadElements (fetchPage : string -> Result Response)
    (url : string) (selectors : Selectors) : Result (list Element) :=
  response ← fetchPage (proxyUrl +:+ encodeURIComponent url);
  data ← json response;
  contents ← getProp data "contents";
  html ← ToString contents;
  let doc := parseFromString html in
  querySelectorAll doc (default "undefined" (sel_container selectors)).

Definition scrapeSite (fetchPage : string -> Result Response) (now : nat -> Z)
    (url : string) (selectors : Selectors) : Result (list Scraped) :=
  match (opportunityElements ← loadElements fetchPage url selectors;
         forEachElement now url selectors opportunityElements 0 []) with
  | Ok opportunities => Ok opportunities
  | Throw _ => Ok []
  end.

(** The records of all container elements, empty titles included. *)
Fixpoint buildAll (now : nat -> Z) (url : string) (selectors : Selectors)
    (elements : list Element) (index : nat) : Result (list Scraped) :=
  match elements with
  | [] => Ok []
  | element :: rest =>
      opportunity ← buildOpportunity (now index) url selectors element index;
      more ← buildAll now url selectors rest (S index);
      mret (opportunity :: more)
  end.

End Scraper.

(** ** combineResults over a store of arrays

    [combineResults] writes to memory: it allocates [combined] and pushes
    to it.  Here the arrays live in a store, so that what the function
    writes, and what it leaves alone, can be stated.  The opportunity
    objects are only read (their title and organization); they stay
    trees. *)
Module InPlace.

Definition loc := positive.

(** The arrays in memory. *)
Abbreviation Store := (gmap loc (list JSValue)).

(** An element of [apiResults]. *)
Inductive ResultRef :=
  | WithArray (l : loc)     (* an object whose [opportunities] is the array at [l] *)
  | Plain (v : JSValue).    (* any other value, holding no reference into the store *)

(** [const combined = []] *)
Definition alloc (σ : Store) : loc * Store :=
  let l := fresh (dom σ) in (l, <[l := []]> σ).

(** [combined.push(opp)] *)
Definition push (l : loc) (opp : JSValue) (σ : Store) : Store :=
  <[l := ((σ !!! l) ++ [opp])%list]> σ.

(** The set [seen] and the memory. *)
Definition State : Type := gset string * Store.

(** The inner callback, for one opportunity. *)
Definition visit (combined : loc) (opp : JSValue) (st : State) : State * Result unit :=
  match oppKey opp with
  | Throw e => (st, Throw e)
  | Ok key =>
      if decide (key ∈ st.1) then (st, Ok ())
      else (({[key]} ∪ st.1, push combined opp st.2), Ok ())
  end.

(** [forEach] on the array at [l]: [n] indices are left to visit from
    [k] on, and each element is read from memory when its turn comes. *)
Fixpoint forEachIndex (combined l : loc) (n k : nat) (st : State) : State * Result unit :=
  match n with
  | O => (st, Ok ())
  | S n' =>
      match (st.2 !!! l) !! k with
      | None => forEachIndex combined l n' (S k) st
      | Some opp =>
          match visit combined opp st with
          | (st', Ok _) => forEachIndex combined l n' (S k) st'
          | (st', Throw e) => (st', Throw e)
          end
      end
  end.

(** [forEach] on an array that is not in the store. *)
Fixpoint forEachList (combined : loc) (opps : list JSValue) (st : State)
    : State * Result unit :=
  match opps with
  | [] => (st, Ok ())
  | opp :: rest =>
      match visit combined opp st with
      | (st', Ok _) => forEachList combined rest st'
      | (st', Throw e) => (st', Throw e)
      end
  end.

(** The outer callback, for one element of [apiResults]. *)
Definition visitResult (combined : loc) (r : ResultRef) (st : State)
    : State * Result unit :=
  match r with
  | WithArray l => forEachIndex combined l (length (st.2 !!! l)) 0 st
  | Plain v =>
      match getProp v "opportunities" with
      | Throw e => (st, Throw e)
      | Ok opportunities =>
          if truthy opportunities then
            match opportunities with
            | JArr opps => forEachList combined opps st
            | _ => (st, Throw TypeError)
            end
          else (st, Ok ())
      end
  end.

Fixpoint forEachResult (combined : loc) (apiResults : list ResultRef) (st : State)
    : State * Result unit :=
  match apiResults with
  | [] => (st, Ok ())
  | r :: rest =>
      match visitResult combined r st with
      | (st', Ok _) => forEachResult combined rest st'
      | (st', Throw e) => (st', Throw e)
      end
  end.

(** The memory after the call, and the location of the array held by
    the returned object. *)
Definition combineResults (apiResults : list ResultRef) (σ : Store) : Store * Result loc :=
  let '(combined, σ0) := alloc σ in
  match forEachResult combined apiResults (∅, σ0) with
  | (st, Ok _) => (st.2, Ok combined)
  | (st, Throw e) => (st.2, Throw e)
  end.

(** The value an element of [apiResults] has in memory [σ]. *)
Definition reify (σ : Store) (r : ResultRef) : JSValue :=
  match r with
  | WithArray l => JObj [("opportunities", JArr (σ !!! l))]
  | Plain v => v
  end.

Definition refs (apiResults : list ResultRef) : list loc :=
  omap (fun r => match r with WithArray l => Some l | Plain _ => None end) apiResults.

End InPlace.

(** ** Reading the outcome of combineResults *)

(** The opportunities of one result, as the outer loop takes them. *)
Definition opportunitiesOf (result : JSValue) : list JSValue :=
  match getProp result "opportunities" with
  | Ok (JArr opps) => opps
  | _ => []
  end.

(** All opportunities of the input, sources in the order listed and each
    source's opportunities in the order of its payload. *)
Definition flatten (apiResults : list JSValue) : list JSValue :=
  concat (map opportunitiesOf apiResults).

(** The (title, organization) pair of an opportunity. *)
Definition titleOrg (opp : JSValue) : Result (JSValue * JSValue) :=
  title ← getProp opp "title";
  organization ← getProp opp "organization";
  mret (title, organization).

(** ** Shapes of well-typed arguments *)

(** Strings, numbers, booleans, null and undefined. *)
Definition primitive (v : JSValue) : bool :=
  match v with
  | JArr _ | JObj _ => false
  | _ => true
  end.

(** A [filters] argument of the documented type: left out, or an object
    whose fields hold primitive values. *)
Definition isSearchFilters (filters : JSValue) : bool :=
  match filters with
  | JUndef => true
  | JObj props => forallb (fun kv => primitive kv.2) props
  | _ => false
  end.

(** A network on which every call fails. *)
Definition allFail (net : Net) : Prop := forall url options, isOk (net url options) = false.

(** The ways the network side of one call can fail: [fetch] rejects, the
    status is not 2xx, or the body is not JSON. *)
Definition fetchFails (r : Result Response) : bool :=
  match r with
  | Throw _ => true
  | Ok response => negb (ok response) || negb (isOk (json response))
  end.

Definition primitiveFields (props : list (string * JSValue)) : Prop :=
  Forall (fun kv => primitive kv.2 = true) props.

(** Inputs on which [combineResults] runs to the end: every result is a
    value whose [opportunities] is falsy or an array, and every
    opportunity is a value whose title and organization can be read and
    converted to strings. *)
Definition shapedResult (result : JSValue) : bool :=
  match getProp result "opportunities" with
  | Ok (JArr _) => true
  | Ok o => negb (truthy o)
  | Throw _ => false
  end.

Definition wellShaped (apiResults : list JSValue) : bool :=
  forallb shapedResult apiResults
  && forallb (fun opp => isOk (oppKey opp)) (flatten apiResults).

(** The object [{ opportunities: combined }]. *)
Definition resultSet (combined : list JSValue) : JSValue :=
  JObj [("opportunities", JArr combined)].

(** The URL geocodeLocation asks for. *)
Definition geocodeRequestUrl (address : string) : string :=
  nominatim +:+ "?" +:+
  serializeParams [("q", address); ("format", "json"); ("limit", "1")].

(** ** The store and the value-level loops *)

(** The accumulator of the value-level loops that a state stands for. *)
Definition accOf (c : InPlace.loc) (st : InPlace.State) : Acc := (st.1, st.2 !!! c).

(** What a step may change in memory: only the array at [c], which
    stays allocated. *)
Definition frame (c : InPlace.loc) (st st' : InPlace.State) : Prop :=
  (forall l, l <> c -> st'.2 !! l = st.2 !! l) /\
  (is_Some (st.2 !! c) -> is_Some (st'.2 !! c)).

(** A run over the store ends as the value-level run [v] does. *)
Definition simulates {A} (r : Result A) (c : InPlace.loc) (st' : InPlace.State)
    (v : Result Acc) : Prop :=
  match r with
  | Ok _ => v = Ok (accOf c st')
  | Throw e => v = Throw e
  end.


(** ** Occurrences of a zip code *)

Fixpoint allDigits (s : string) : bool :=
  match s with
  | EmptyString => true
  | String c rest => isDigit c && allDigits rest
  end.

Fixpoint endsWithWordChar (s : string) : bool :=
  match s with
  | EmptyString => false
  | String c EmptyString => isWordChar c
  | String _ rest => endsWithWordChar rest
  end.

(** There is a word boundary at the end of [pre] when a digit follows;
    [prevWord] stands for the character before [pre], if any. *)
Definition boundaryBefore (prevWord : bool) (pre : string) : bool :=
  match pre with
  | EmptyString => negb prevWord
  | _ => negb (endsWithWordChar pre)
  end.

(** [z] is a match of /\b\d{5}\b/ between [pre] and [post]. *)
Definition zipAt (prevWord : bool) (pre z post : string) : Prop :=
  String.length z = 5%nat /\
  allDigits z = true /\
  boundaryBefore prevWord pre = true /\
  startsWithWordChar post = false.

(** ** The accumulator of combineResults *)

(** What the two loops keep true of [seen] and [combined]: the kept
    opportunities have keys, no two of them the same, and [seen] holds
    exactly these keys. *)
Definition keysMatch (acc : Acc) : Prop :=
  NoDup (map oppKey acc.2) /\
  (forall k, k ∈ acc.1 <-> exists y, y ∈ acc.2 /\ oppKey y = Ok k).

(** ** The requests of the three sources *)

(** The [try]/[catch] that ends each of the three searches: the payload
    of the call as it is, or the fallback data when the call fails. *)
Definition payloadOrFallback (net : Net) (url : string) (options : JSValue)
    (location : string) (filters : JSValue) : Result JSValue :=
  match net url options with
  | Ok d => Ok d
  | Throw _ => getFallbackData location filters
  end.

Definition volunteerMatchOptions (penv : ProcessEnv) : JSValue :=
  JObj [("headers", JObj [("Authorization", bearer (VOLUNTEER_MATCH_API_KEY penv))])].

Definition justServeOptions (penv : ProcessEnv) : JSValue :=
  JObj [("headers", JObj [("X-API-Key", envValue (JUSTSERVE_API_KEY penv))])].

Definition unitedWayOptions (penv : ProcessEnv) : JSValue :=
  JObj [("headers", JObj [("Authorization", bearer (UNITED_WAY_API_KEY penv))])].

(** ** Shapes of scraped strings *)

Definition startsWithWhiteSpace (s : string) : bool :=
  match s with
  | String c _ => isWhiteSpace c
  | EmptyString => false
  end.

Fixpoint endsWithWhiteSpace (s : string) : bool :=
  match s with
  | EmptyString => false
  | String c EmptyString => isWhiteSpace c
  | String _ rest => endsWithWhiteSpace rest
  end.

(** No white space at either end. *)
Definition trimmed (s : string) : bool :=
  negb (startsWithWhiteSpace s) && negb (endsWithWhiteSpace s).

(** No hyphen anywhere in the string. *)
Fixpoint noDash (s : string) : bool :=
  match s with
  | EmptyString => true
  | String c rest => negb (N_of_ascii c =? 45)%N && noDash rest
  end.

(** ** Sample data *)

Definition sampleTutor : JSValue :=
  JObj [("id", JStr "1"); ("title", JStr "Tutor"); ("organization", JStr "School")].

Definition sampleTutorAgain : JSValue :=
  JObj [("id", JStr "7"); ("title", JStr "Tutor"); ("organization", JStr "School")].

Definition sampleTrees : JSValue :=
  JObj [("id", JStr "2"); ("title", JStr "Plant trees"); ("organization", JStr "Parks")].

Definition sampleResults : list JSValue :=
  [resultSet [sampleTutor; sampleTrees]; JObj []; resultSet [sampleTutorAgain]].

Definition samplePenv : ProcessEnv :=
  {| VOLUNTEER_MATCH_API_KEY := Some "vm"; JUSTSERVE_API_KEY := None;
     UNITED_WAY_API_KEY := Some "uw" |}.

Definition sampleFilters : JSValue :=
  JObj [("category", JStr "education"); ("distance", JNum "10")].

(** * Properties *)



(** ** mapCategoryToJustServe *)

Lemma mapCategoryToJustServe_recognized label id :
  In (label, id) justServeCatalog ->
  mapCategoryToJustServe label = Own (JNum (pretty id)).
Proof.
  unfold justServeCatalog. simpl.
  intros H. repeat (destruct H as [[= <- <-] | H]; [reflexivity |]). destruct H.
Qed.

Lemma lookupOwn_None name props :
  ~ In name (map fst props) -> lookupOwn name props = None.
Proof.
  induction props as [| [k v] rest IH]; intros H; [reflexivity |].
  cbn [lookupOwn]. destruct (String.eqb_spec k name) as [E | _].
  - exfalso. apply H. left. exact E.
  - apply IH. intros Hin. apply H. right. exact Hin.
Qed.

Lemma lookupOwn_mapping_None category :
  ~ In category (map fst justServeCatalog) -> lookupOwn category mapping = None.
Proof. intros H. apply lookupOwn_None. exact H. Qed.

Lemma mapCategoryToJustServe_unrecognized category :
  ~ In category (map fst justServeCatalog) ->
  ~ In category objectPrototypeNames ->
  mapCategoryToJustServe category = Own (JStr "").
Proof.
  intros H1 H2. unfold mapCategoryToJustServe, getMember.
  rewrite lookupOwn_mapping_None by assumption.
  destruct (inb category objectPrototypeNames) eqn:E; [| reflexivity].
  exfalso. apply H2. unfold inb in E. apply existsb_exists in E.
  destruct E as [x [Hx Hx']]. apply String.eqb_eq in Hx'. subst. assumption.
Qed.

Lemma mapCategoryToJustServe_inherited category :
  In category objectPrototypeNames ->
  mapCategoryToJustServe category = Inherited category.
Proof.
  unfold objectPrototypeNames. simpl.
  intros H. repeat (destruct H as [<- | H]; [reflexivity |]). destruct H.
Qed.

(** C8: at the category string "constructor", which is none of the
    recognized labels, mapCategoryToJustServe does not return the empty
    string: [mapping["constructor"]] is the member inherited from
    Object.prototype, which is truthy, and it is returned. *)
Theorem mapCategoryToJustServe_constructor :
  ~ In "constructor" (map fst justServeCatalog) /\
  mapCategoryToJustServe "constructor" = Inherited "constructor" /\
  mapCategoryToJustServe "constructor" <> Own (JStr "").
Proof.
  split; [| split].
  - simpl. intros H. repeat (destruct H as [H | H]; [discriminate H |]). destruct H.
  - reflexivity.
  - discriminate.
Qed.

(** ** makeAPICall: the cache *)

Lemma defaultArg_not_undefined options :
  defaultArg (JObj []) options <> JUndef.
Proof. destruct options; discriminate. Qed.

Lemma cacheHit_cacheSet_same api key e now :
  cacheHit (cacheSet api key e) key now =
    if now - timestamp e <? cacheTimeout api then Some (data e) else None.
Proof. unfold cacheHit, cacheSet. simpl. rewrite lookup_insert_eq. reflexivity. Qed.

Lemma cacheHit_cacheSet_other api key key' e now :
  key <> key' ->
  cacheHit (cacheSet api key e) key' now = cacheHit api key' now.
Proof.
  intros Hne. unfold cacheHit, cacheSet. simpl.
  rewrite lookup_insert_ne by exact Hne. reflexivity.
Qed.

(** A call that finds a live entry returns it and sends nothing. *)
Lemma makeAPICall_hit api url options env d :
  cacheHit api (cacheKey url (defaultArg (JObj []) options)) (nowCheck env) = Some d ->
  makeAPICall api url options env =
    {| apiAfter := api; requests := []; settled := Ok d |}.
Proof. intros H. unfold makeAPICall. rewrite H. reflexivity. Qed.

(** A call that finds no live entry and whose fetch and parse succeed
    sends one request and stores the payload with the time of storing. *)
Lemma makeAPICall_miss_success api url options env status d :
  getProp (defaultArg (JObj []) options) "headers" <> Throw TypeError ->
  cacheHit api (cacheKey url (defaultArg (JObj []) options)) (nowCheck env) = None ->
  fetched env = Ok {| ok := true; status := status; json := Ok d |} ->
  makeAPICall api url options env =
    {| apiAfter := cacheSet api (cacheKey url (defaultArg (JObj []) options))
                     {| data := d; timestamp := nowStore env |};
       requests := [ {| reqUrl := url; reqOptions := defaultArg (JObj []) options |} ];
       settled := Ok d |}.
Proof.
  intros Hh Hmiss Hf. unfold makeAPICall. rewrite Hmiss, Hf.
  destruct (getProp (defaultArg (JObj []) options) "headers") as [h | e] eqn:E.
  - reflexivity.
  - exfalso. apply Hh. unfold getProp in E.
    destruct (defaultArg (JObj []) options); congruence.
Qed.

(** A call that fails leaves the cache as it was and throws. *)
Lemma makeAPICall_failure api url options env :
  cacheHit api (cacheKey url (defaultArg (JObj []) options)) (nowCheck env) = None ->
  fetchFails (fetched env) = true ->
  apiAfter (makeAPICall api url options env) = api /\
  isOk (settled (makeAPICall api url options env)) = false /\
  (length (requests (makeAPICall api url options env)) <= 1)%nat.
Proof.
  intros Hmiss Hf. unfold makeAPICall. rewrite Hmiss.
  destruct (getProp _ "headers") as [h | e]; [| simpl; auto].
  destruct (fetched env) as [response | e]; [| simpl; auto].
  simpl in Hf. destruct (ok response); simpl in *.
  - destruct (json response); [discriminate | simpl; auto].
  - auto.
Qed.

(** Whatever happens, the cache changes only under the key of the call. *)
Lemma makeAPICall_other_keys api url options env key :
  key <> cacheKey url (defaultArg (JObj []) options) ->
  cache (apiAfter (makeAPICall api url options env)) !! key = cache api !! key.
Proof.
  intros Hne. unfold makeAPICall.
  repeat match goal with
  | |- context [match ?x with _ => _ end] => destruct x; simpl; try reflexivity
  end.
  apply lookup_insert_ne. congruence.
Qed.

Lemma makeAPICall_cacheTimeout api url options env :
  cacheTimeout (apiAfter (makeAPICall api url options env)) = cacheTimeout api.
Proof.
  unfold makeAPICall.
  repeat match goal with
  | |- context [match ?x with _ => _ end] => destruct x; simpl; try reflexivity
  end.
Qed.

Lemma string_length_app (s t : string) :
  String.length (s +:+ t) = (String.length s + String.length t)%nat.
Proof. induction s as [| c s IH]; simpl; [reflexivity | rewrite IH; reflexivity]. Qed.

(** Appending the same suffix to two strings keeps them apart. *)
Lemma string_app_inj_r (s1 s2 t : string) : s1 +:+ t = s2 +:+ t -> s1 = s2.
Proof.
  revert s2. induction s1 as [| c s1 IH]; intros [| c2 s2] H.
  - reflexivity.
  - apply (f_equal String.length) in H. rewrite ?string_length_app in H.
    cbn [String.length] in H. lia.
  - apply (f_equal String.length) in H. rewrite ?string_length_app in H.
    cbn [String.length] in H. lia.
  - cbn [String.append] in H. injection H as -> H. f_equal. apply IH. exact H.
Qed.

(** C2: two calls with the same URL and options, the second less than ten
    minutes after the first stored its payload, make one network call
    between them and the second returns the cached payload; a call made
    once ten minutes have passed goes to the network again and, when it
    succeeds, its payload replaces the entry; a call that fails (fetch
    rejected, status not 2xx, or body not JSON) stores nothing. *)
Theorem makeAPICall_caches_for_ten_minutes
    (api : VolunteerAPI) (url : string) (options : JSValue) (env1 env2 env3 : Env)
    (status1 : Z) (d1 : JSValue) :
  let key := cacheKey url (defaultArg (JObj []) options) in
  let call1 := makeAPICall api url options env1 in
  let call2 := makeAPICall (apiAfter call1) url options env2 in
  let call3 := makeAPICall (apiAfter call2) url options env3 in
  cacheTimeout api = 600000 ->
  options <> JNull ->
  cacheHit api key (nowCheck env1) = None ->
  fetched env1 = Ok {| ok := true; status := status1; json := Ok d1 |} ->
  nowCheck env2 - nowStore env1 < 600000 ->
  600000 <= nowCheck env3 - nowStore env1 ->
  (* the first two calls *)
  length (requests call1 ++ requests call2) = 1%nat /\
  settled call1 = Ok d1 /\
  settled call2 = Ok d1 /\
  (* the call after expiry *)
  length (requests call3) = 1%nat /\
  (forall status3 d3,
      fetched env3 = Ok {| ok := true; status := status3; json := Ok d3 |} ->
      settled call3 = Ok d3 /\
      cache (apiAfter call3) !! key = Some {| data := d3; timestamp := nowStore env3 |}) /\
  (* failures *)
  (fetchFails (fetched env3) = true ->
      apiAfter call3 = apiAfter call2 /\ isOk (settled call3) = false) /\
  (forall api' env,
      cacheHit api' key (nowCheck env) = None ->
      fetchFails (fetched env) = true ->
      apiAfter (makeAPICall api' url options env) = api' /\
      isOk (settled (makeAPICall api' url options env)) = false).
Proof.
  intros key call1 call2 call3 Htimeout Hopt Hmiss Hfetch Hwithin Hafter.
  assert (Hheaders : getProp (defaultArg (JObj []) options) "headers" <> Throw TypeError).
  { destruct options; simpl; congruence. }
  assert (E1 : call1 =
    {| apiAfter := cacheSet api key {| data := d1; timestamp := nowStore env1 |};
       requests := [ {| reqUrl := url; reqOptions := defaultArg (JObj []) options |} ];
       settled := Ok d1 |}).
  { apply (makeAPICall_miss_success api url options env1 status1 d1); assumption. }
  assert (E2 : call2 = {| apiAfter := apiAfter call1; requests := []; settled := Ok d1 |}).
  { apply makeAPICall_hit. rewrite E1. simpl. fold key.
    rewrite cacheHit_cacheSet_same. simpl. rewrite Htimeout.
    destruct (Z.ltb_spec (nowCheck env2 - nowStore env1) 600000); [reflexivity | lia]. }
  assert (Hmiss3 : cacheHit (apiAfter call2) key (nowCheck env3) = None).
  { rewrite E2, E1. simpl. rewrite cacheHit_cacheSet_same. simpl. rewrite Htimeout.
    destruct (Z.ltb_spec (nowCheck env3 - nowStore env1) 600000); [lia | reflexivity]. }
  split; [rewrite E1, E2; reflexivity |].
  split; [rewrite E1; reflexivity |].
  split; [rewrite E2; reflexivity |].
  split.
  { subst call3. unfold makeAPICall. fold key. rewrite Hmiss3.
    destruct (getProp (defaultArg (JObj []) options) "headers") as [h | e] eqn:E.
    - destruct (fetched env3) as [r | e]; [| reflexivity].
      destruct (ok r); simpl; [| reflexivity]. destruct (json r); reflexivity.
    - exfalso. destruct options; simpl in E; congruence. }
  split.
  { intros status3 d3 Hf3. subst call3.
    rewrite (makeAPICall_miss_success _ url options env3 status3 d3); try assumption.
    simpl. split; [reflexivity |]. fold key. apply lookup_insert_eq. }
  split.
  { intros Hf. destruct (makeAPICall_failure (apiAfter call2) url options env3) as (Ha & Hb & _);
      try assumption. split; assumption. }
  intros api' env Hm Hf.
  destruct (makeAPICall_failure api' url options env) as (Ha & Hb & _); try assumption.
  split; assumption.
Qed.

(** The serialization of the options of a call, as the key uses it. *)
Lemma cacheKey_same_options url1 url2 options :
  cacheKey url1 options = cacheKey url2 options -> url1 = url2.
Proof. unfold cacheKey. apply string_app_inj_r. Qed.

Lemma cacheKey_same_url url options1 options2 :
  cacheKey url options1 = cacheKey url options2 <->
  default "undefined" (JSON_stringify options1) = default "undefined" (JSON_stringify options2).
Proof.
  unfold cacheKey. split.
  - apply (inj (String.append url)).
  - intros ->. reflexivity.
Qed.

(** C4, as the code has it: the key of a call is
    [url + JSON.stringify(options)], and a call reads and writes the cache
    under its own key only.  So two calls share an entry exactly when
    their key strings are equal; with the same options two different URLs
    never give the same key, and with the same URL two options values give
    the same key exactly when they serialize alike. *)
Theorem cache_entries_shared_by_key_only :
  (forall api url1 options1 env1 url2 options2 now,
      cacheKey url1 (defaultArg (JObj []) options1)
        <> cacheKey url2 (defaultArg (JObj []) options2) ->
      cacheHit (apiAfter (makeAPICall api url1 options1 env1))
               (cacheKey url2 (defaultArg (JObj []) options2)) now
      = cacheHit api (cacheKey url2 (defaultArg (JObj []) options2)) now) /\
  (forall url1 url2 options,
      url1 <> url2 -> cacheKey url1 options <> cacheKey url2 options) /\
  (forall url options1 options2,
      cacheKey url options1 = cacheKey url options2 <->
      default "undefined" (JSON_stringify options1)
        = default "undefined" (JSON_stringify options2)).
Proof.
  split; [| split].
  - intros api url1 options1 env1 url2 options2 now Hne.
    unfold cacheHit. rewrite makeAPICall_other_keys by congruence.
    rewrite makeAPICall_cacheTimeout. reflexivity.
  - intros url1 url2 options Hne H. apply Hne. eapply cacheKey_same_options. exact H.
  - apply cacheKey_same_url.
Qed.

(** C4 as stated fails: the options [{ headers: { "X-API-Key": undefined } }]
    (what searchJustServe passes when its key is not configured) and
    [{ headers: {} }] are different, yet with the same URL they get the
    same key, and the payload stored by a call with the first is returned
    to a call with the second without a network call. *)
Lemma cacheKey_collision :
  let options1 := JObj [("headers", JObj [("X-API-Key", JUndef)])] in
  let options2 := JObj [("headers", JObj [])] in
  let url := "https://www.justserve.org/api/opportunities?zipCode=22201" in
  let env1 := {| nowCheck := 0;
                 fetched := Ok {| ok := true; status := 200; json := Ok (JStr "payload") |};
                 nowStore := 1 |} in
  let env2 := {| nowCheck := 2; fetched := Throw NetworkError; nowStore := 3 |} in
  let call1 := makeAPICall constructor url options1 env1 in
  let call2 := makeAPICall (apiAfter call1) url options2 env2 in
  (url, options1) <> (url, options2) /\
  cacheKey url options1 = cacheKey url options2 /\
  requests call2 = [] /\
  settled call2 = Ok (JStr "payload").
Proof.
  split; [discriminate |]. split; [reflexivity |]. split; vm_compute; reflexivity.
Qed.

(** ** The per-source searches *)

Ltac result_simpl := cbn [mbind Result_bind mret Result_ret].

Lemma ToString_primitive v : primitive v = true -> exists s, ToString v = Ok s.
Proof. destruct v; simpl; try discriminate; eauto. Qed.

Lemma primitive_or_else a b :
  primitive a = true -> primitive b = true -> primitive (or_else a b) = true.
Proof. unfold or_else. destruct (truthy a); auto. Qed.

Lemma primitiveFields_lookupOwn props name :
  primitiveFields props -> primitive (default JUndef (lookupOwn name props)) = true.
Proof.
  induction 1 as [| [k v] rest Hv _ IH]; [reflexivity |].
  cbn [lookupOwn]. destruct (String.eqb k name); [exact Hv | exact IH].
Qed.

Lemma primitiveFields_setProp props k v :
  primitiveFields props -> primitive v = true -> primitiveFields (setProp props k v).
Proof.
  intros H Hv. induction H as [| [k' v'] rest Hv' Hrest IH]; cbn [setProp].
  - repeat constructor. exact Hv.
  - destruct (String.eqb k' k); constructor; auto.
Qed.

Lemma primitiveFields_objectLiteral fields rest :
  primitiveFields fields -> primitiveFields rest ->
  primitiveFields (objectLiteral fields rest).
Proof.
  intros Hf Hr. unfold objectLiteral.
  assert (Hall : primitiveFields (fields ++ rest)) by (apply Forall_app; split; assumption).
  assert (Hnil : primitiveFields []) by constructor.
  revert Hnil. generalize (@nil (string * JSValue)) as acc.
  induction Hall as [| [k v] l Hv Hl IH]; intros acc Hacc; simpl; [exact Hacc |].
  apply IH. apply primitiveFields_setProp; assumption.
Qed.

Lemma URLSearchParams_primitive props :
  primitiveFields props -> exists params, URLSearchParams props = Ok params.
Proof.
  induction 1 as [| [k v] rest Hv _ [params IH]]; [simpl; eauto |].
  cbn [URLSearchParams]. destruct (ToString_primitive v Hv) as [s ->].
  result_simpl. rewrite IH. result_simpl. eauto.
Qed.

Lemma memberToString_mapCategory key :
  exists s, memberToString (mapCategoryToJustServe key) = Ok s.
Proof.
  unfold mapCategoryToJustServe, getMember, mapping. cbn [lookupOwn].
  repeat match goal with
  | |- context [String.eqb ?k key] => destruct (String.eqb k key); [simpl; eauto |]
  end.
  destruct (inb key objectPrototypeNames); simpl; eauto.
Qed.

(** The filters the searches work with: the default [{}] for a missing
    argument. *)
Lemma isSearchFilters_props filters :
  isSearchFilters filters = true ->
  exists props, defaultArg (JObj []) filters = JObj props /\ primitiveFields props.
Proof.
  destruct filters; simpl; try discriminate; intros H.
  - exists []. split; [reflexivity | constructor].
  - exists props. split; [reflexivity |]. apply Forall_forall. intros kv Hin.
    rewrite forallb_forall in H. apply H. apply list_elem_of_In. exact Hin.
Qed.

Lemma allFail_Throw net url options :
  allFail net -> exists e, net url options = Throw e.
Proof. intros H. specialize (H url options). destruct (net url options); [discriminate | eauto]. Qed.

Lemma searchVolunteerMatch_fallback penv net location filters :
  allFail net -> isSearchFilters filters = true ->
  searchVolunteerMatch penv net location filters
    = getFallbackData location (defaultArg (JObj []) filters).
Proof.
  intros Hnet Hf. unfold searchVolunteerMatch. cbv zeta.
  destruct (isSearchFilters_props _ Hf) as (props & -> & Hprops).
  cbn [getProp spread]. result_simpl.
  match goal with |- context [URLSearchParams ?p] =>
    destruct (URLSearchParams_primitive p) as [params ->] end.
  { apply primitiveFields_objectLiteral; [| exact Hprops].
    repeat constructor; simpl;
      apply primitive_or_else; auto using primitiveFields_lookupOwn. }
  result_simpl.
  match goal with |- context [net ?u ?o] =>
    destruct (allFail_Throw net u o Hnet) as [e ->] end.
  reflexivity.
Qed.

Lemma searchUnitedWay_fallback penv net location filters :
  allFail net -> isSearchFilters filters = true ->
  searchUnitedWay penv net location filters
    = getFallbackData location (defaultArg (JObj []) filters).
Proof.
  intros Hnet Hf. unfold searchUnitedWay. cbv zeta.
  destruct (isSearchFilters_props _ Hf) as (props & -> & Hprops).
  cbn [getProp spread]. result_simpl.
  match goal with |- context [URLSearchParams ?p] =>
    destruct (URLSearchParams_primitive p) as [params ->] end.
  { apply primitiveFields_objectLiteral; [| exact Hprops].
    repeat constructor; simpl;
      apply primitive_or_else; auto using primitiveFields_lookupOwn. }
  result_simpl.
  match goal with |- context [net ?u ?o] =>
    destruct (allFail_Throw net u o Hnet) as [e ->] end.
  reflexivity.
Qed.

Lemma searchJustServe_fallback penv net location filters :
  allFail net -> isSearchFilters filters = true ->
  searchJustServe penv net location filters
    = getFallbackData location (defaultArg (JObj []) filters).
Proof.
  intros Hnet Hf. unfold searchJustServe. cbv zeta.
  destruct (isSearchFilters_props _ Hf) as (props & -> & Hprops).
  cbn [getProp spread]. result_simpl.
  destruct (ToString_primitive _ (primitiveFields_lookupOwn props "category" Hprops))
    as [key ->].
  result_simpl. destruct (memberToString_mapCategory key) as [id ->]. result_simpl.
  match goal with |- context [URLSearchParams ?p] =>
    destruct (URLSearchParams_primitive p) as [params ->] end.
  { apply primitiveFields_objectLiteral; [| exact Hprops].
    repeat constructor; simpl;
      apply primitive_or_else; auto using primitiveFields_lookupOwn. }
  result_simpl.
  match goal with |- context [net ?u ?o] =>
    destruct (allFail_Throw net u o Hnet) as [e ->] end.
  reflexivity.
Qed.

Lemma getFallbackData_object location props :
  getFallbackData location (JObj props)
    = Ok (JObj [("opportunities",
            JArr [fallbackOpportunity (default JUndef (lookupOwn "category" props)) location])]).
Proof. reflexivity. Qed.

(** C6, as the code has it: when its call fails, each of the three
    searches returns (never throws) a result set of exactly one fallback
    record; the record's id, title, organization, description, date, time,
    skills and contact are fixed, its category is [filters.category] (or
    "environment" when that is missing or falsy) and its location is the
    location that was searched. *)
Theorem search_failure_gives_fallback
    (penv : ProcessEnv) (net : Net) (location : string) (filters : JSValue) :
  allFail net ->
  isSearchFilters filters = true ->
  exists category,
    getProp (defaultArg (JObj []) filters) "category" = Ok category /\
    let fallback :=
      Ok (JObj [("opportunities", JArr [fallbackOpportunity category location])]) in
    searchVolunteerMatch penv net location filters = fallback /\
    searchJustServe penv net location filters = fallback /\
    searchUnitedWay penv net location filters = fallback.
Proof.
  intros Hnet Hf.
  rewrite searchVolunteerMatch_fallback, searchJustServe_fallback,
    searchUnitedWay_fallback by assumption.
  destruct (isSearchFilters_props _ Hf) as (props & -> & _).
  exists (default JUndef (lookupOwn "category" props)).
  split; [reflexivity |]. cbv zeta. rewrite getFallbackData_object. auto.
Qed.

(** C6 as stated fails: the fallback record is not the same for every
    input.  With every call failing, a search for "Arlington, VA" with
    category "education" and a search for "Boston" without filters return
    different records. *)
Lemma fallback_record_depends_on_input :
  let penv := {| VOLUNTEER_MATCH_API_KEY := None; JUSTSERVE_API_KEY := None;
                 UNITED_WAY_API_KEY := None |} in
  let net : Net := fun _ _ => Throw NetworkError in
  searchVolunteerMatch penv net "Arlington, VA" (JObj [("category", JStr "education")])
    = Ok (JObj [("opportunities",
            JArr [fallbackOpportunity (JStr "education") "Arlington, VA"])]) /\
  searchVolunteerMatch penv net "Boston" JUndef
    = Ok (JObj [("opportunities", JArr [fallbackOpportunity JUndef "Boston"])]) /\
  fallbackOpportunity (JStr "education") "Arlington, VA"
    <> fallbackOpportunity JUndef "Boston".
Proof.
  split; [vm_compute; reflexivity |]. split; [vm_compute; reflexivity |].
  vm_compute. discriminate.
Qed.

(** ** combineResults *)

Lemma forEachOpp_cons_new opp rest acc key :
  oppKey opp = Ok key -> key ∉ acc.1 ->
  forEachOpp (opp :: rest) acc = forEachOpp rest ({[key]} ∪ acc.1, (acc.2 ++ [opp])%list).
Proof.
  intros Hk Hnew. cbn [forEachOpp]. rewrite Hk. result_simpl.
  rewrite decide_False by exact Hnew. reflexivity.
Qed.

Lemma forEachOpp_cons_seen opp rest acc key :
  oppKey opp = Ok key -> key ∈ acc.1 ->
  forEachOpp (opp :: rest) acc = forEachOpp rest acc.
Proof.
  intros Hk Hseen. cbn [forEachOpp]. rewrite Hk. result_simpl.
  rewrite decide_True by exact Hseen. reflexivity.
Qed.

Lemma forEachOpp_app l1 l2 acc :
  forEachOpp (l1 ++ l2) acc = forEachOpp l1 acc ≫= forEachOpp l2.
Proof.
  revert acc. induction l1 as [| opp l1 IH]; intros acc; [reflexivity |].
  cbn [app forEachOpp]. destruct (oppKey opp) as [key | e]; result_simpl; [| reflexivity].
  destruct (decide (key ∈ acc.1)); apply IH.
Qed.

(** What a run of the inner loop does to the accumulator: it appends to
    [combined] a subsequence of the opportunities it visits, and [seen]
    grows by exactly their keys. *)
Lemma forEachOpp_spec l acc acc' :
  forEachOpp l acc = Ok acc' ->
  exists kept,
    acc'.2 = (acc.2 ++ kept)%list /\
    sublist kept l /\
    (forall k, k ∈ acc'.1 <-> k ∈ acc.1 \/ exists y, y ∈ l /\ oppKey y = Ok k).
Proof.
  revert acc. induction l as [| opp l IH]; intros acc H.
  - injection H as <-. exists []. rewrite app_nil_r. split; [reflexivity |].
    split; [constructor |]. intros k. split; [auto |].
    intros [Hk | (y & Hy & _)]; [exact Hk | inversion Hy].
  - cbn [forEachOpp] in H. destruct (oppKey opp) as [key | e] eqn:Hkey;
      result_simpl; cbn [mbind Result_bind] in H; [| discriminate].
    destruct (decide (key ∈ acc.1)) as [Hseen | Hnew].
    + destruct (IH _ H) as (kept & Hout & Hsub & Hkeys).
      exists kept. split; [exact Hout |]. split; [apply sublist_cons; exact Hsub |].
      intros k. rewrite Hkeys. split.
      * intros [Hk | (y & Hy & Hyk)]; [auto |]. right. exists y.
        split; [right; exact Hy | exact Hyk].
      * intros [Hk | (y & Hy & Hyk)]; [auto |].
        apply elem_of_cons in Hy as [-> | Hy].
        -- left. rewrite Hkey in Hyk. injection Hyk as <-. exact Hseen.
        -- right. exists y. auto.
    + destruct (IH _ H) as (kept & Hout & Hsub & Hkeys). cbn [fst snd] in *.
      exists (opp :: kept). split; [rewrite Hout, <- app_assoc; reflexivity |].
      split; [apply sublist_skip; exact Hsub |].
      intros k. rewrite Hkeys. split.
      * intros [Hk | (y & Hy & Hyk)].
        -- apply elem_of_union in Hk as [Hk | Hk]; [| auto].
           apply elem_of_singleton in Hk as ->. right. exists opp.
           split; [left | exact Hkey].
        -- right. exists y. split; [right; exact Hy | exact Hyk].
      * intros [Hk | (y & Hy & Hyk)].
        -- left. apply elem_of_union. auto.
        -- apply elem_of_cons in Hy as [-> | Hy].
           ++ left. rewrite Hkey in Hyk. injection Hyk as <-.
              apply elem_of_union. left. apply elem_of_singleton. reflexivity.
           ++ right. exists y. auto.
Qed.

Lemma opportunitiesOf_falsy result o :
  getProp result "opportunities" = Ok o -> truthy o = false -> opportunitiesOf result = [].
Proof. intros H Hf. unfold opportunitiesOf. rewrite H. destruct o; try reflexivity. discriminate. Qed.

(** The two nested loops visit the flattened input. *)
Lemma forEachResult_flatten apiResults acc acc' :
  forEachResult apiResults acc = Ok acc' ->
  forEachOpp (flatten apiResults) acc = Ok acc'.
Proof.
  revert acc. induction apiResults as [| result rest IH]; intros acc H; [exact H |].
  cbn [forEachResult] in H. unfold flatten. cbn [map concat]. rewrite forEachOpp_app.
  destruct (getProp result "opportunities") as [o | e] eqn:Ho;
    cbn [mbind Result_bind] in H; [| discriminate].
  destruct (truthy o) eqn:Ht.
  - destruct o; try discriminate.
    unfold opportunitiesOf. rewrite Ho.
    destruct (forEachOpp elems acc) as [acc1 | e];
      cbn [mbind Result_bind] in *; [| discriminate].
    apply IH. exact H.
  - rewrite (opportunitiesOf_falsy _ _ Ho Ht). cbn [forEachOpp mbind Result_bind].
    apply IH. exact H.
Qed.

Lemma forEachOpp_total l acc :
  forallb (fun opp => isOk (oppKey opp)) l = true ->
  exists acc', forEachOpp l acc = Ok acc'.
Proof.
  revert acc. induction l as [| opp l IH]; intros acc H; [simpl; eauto |].
  cbn [forallb] in H. apply andb_prop in H as [Hk Hl].
  cbn [forEachOpp]. destruct (oppKey opp) as [key | e]; [| discriminate].
  result_simpl. destruct (decide (key ∈ acc.1)); apply IH; exact Hl.
Qed.

Lemma forEachResult_total apiResults acc :
  wellShaped apiResults = true ->
  exists acc', forEachResult apiResults acc = Ok acc'.
Proof.
  unfold wellShaped. revert acc.
  induction apiResults as [| result rest IH]; intros acc H; [simpl; eauto |].
  apply andb_prop in H as [Hs Hk]. cbn [forallb] in Hs. apply andb_prop in Hs as [Hr Hs].
  unfold flatten in Hk. cbn [map concat] in Hk. rewrite forallb_app in Hk.
  apply andb_prop in Hk as [Hk1 Hk2].
  cbn [forEachResult]. unfold shapedResult in Hr. unfold opportunitiesOf in Hk1.
  destruct (getProp result "opportunities") as [o | e]; [| discriminate].
  result_simpl.
  assert (Hrest : forall a, exists acc', forEachResult rest a = Ok acc').
  { intros a. apply IH. apply andb_true_intro. split; assumption. }
  destruct o; simpl in Hr; try discriminate; cbn [truthy];
    try (apply Hrest);
    try (apply negb_true_iff in Hr; rewrite Hr; apply Hrest).
  destruct (forEachOpp_total elems acc Hk1) as [acc1 ->]. result_simpl. apply Hrest.
Qed.

(** An identical (title, organization) pair gives an identical key. *)
Lemma titleOrg_oppKey x y :
  titleOrg x = titleOrg y -> isOk (titleOrg x) = true -> oppKey x = oppKey y.
Proof.
  unfold titleOrg, oppKey. intros H Hok.
  destruct (getProp x "title") as [tx | e]; [| discriminate].
  destruct (getProp x "organization") as [ox | e]; [| discriminate].
  destruct (getProp y "title") as [ty | e]; [| discriminate].
  destruct (getProp y "organization") as [oy | e]; [| discriminate].
  cbn [mbind Result_bind mret Result_ret] in *. injection H as -> ->. reflexivity.
Qed.

Lemma oppKey_titleOrg_ok x key : oppKey x = Ok key -> isOk (titleOrg x) = true.
Proof.
  unfold oppKey, titleOrg.
  destruct (getProp x "title") as [t | e]; [| discriminate]. result_simpl.
  destruct (ToString t); [| discriminate]. result_simpl.
  destruct (getProp x "organization"); [reflexivity | discriminate].
Qed.

Lemma combineResults_flatten apiResults combined :
  combineResults apiResults = Ok (resultSet combined) ->
  exists seen, forEachOpp (flatten apiResults) (∅, []) = Ok (seen, combined).
Proof.
  unfold combineResults. intros H.
  destruct (forEachResult apiResults (∅, [])) as [[seen out] | e] eqn:E;
    cbn [mbind Result_bind mret Result_ret] in H; [| discriminate].
  injection H as <-. exists seen. apply forEachResult_flatten. exact E.
Qed.

(** C1, as the code has it: combineResults deduplicates the flattened
    opportunities by the key string [title + "-" + organization].  For an
    opportunity [x] standing after the opportunities [pre] and before
    [post] in input order: when an earlier opportunity has the same key
    string (as every earlier one with an identical (title, organization)
    pair has), [x] is dropped whatever its other fields are; when no
    earlier one has that key string, [x] is kept, in its place. *)
Theorem combineResults_keeps_first_of_each_key (apiResults : list JSValue) :
  wellShaped apiResults = true ->
  exists combined,
    combineResults apiResults = Ok (resultSet combined) /\
    forall pre x post,
      flatten apiResults = (pre ++ x :: post)%list ->
      exists key seenPre keptPre keptPost,
        oppKey x = Ok key /\
        forEachOpp pre (∅, []) = Ok (seenPre, keptPre) /\
        sublist keptPost post /\
        ((exists y, y ∈ pre /\ oppKey y = Ok key) ->
           combined = (keptPre ++ keptPost)%list) /\
        ((exists y, y ∈ pre /\ titleOrg y = titleOrg x) ->
           combined = (keptPre ++ keptPost)%list) /\
        ((forall y, y ∈ pre -> oppKey y <> Ok key) ->
           combined = (keptPre ++ x :: keptPost)%list).
Proof.
  intros Hshape.
  destruct (forEachResult_total apiResults (∅, []) Hshape) as [[seen combined] Hrun].
  exists combined. split.
  { unfold combineResults. rewrite Hrun. reflexivity. }
  intros pre x post Hflat.
  apply forEachResult_flatten in Hrun. rewrite Hflat, forEachOpp_app in Hrun.
  destruct (forEachOpp pre (∅, [])) as [[seenPre keptPre] | e] eqn:Hpre;
    cbn [mbind Result_bind] in Hrun; [| discriminate].
  destruct (forEachOpp_spec _ _ _ Hpre) as (kept0 & Hkept0 & _ & Hseen).
  cbn [fst snd] in *. rewrite app_nil_l in Hkept0. subst kept0.
  cbn [forEachOpp] in Hrun.
  destruct (oppKey x) as [key | e] eqn:Hkey; cbn [mbind Result_bind] in Hrun; [| discriminate].
  assert (Hiff : key ∈ seenPre <-> exists y, y ∈ pre /\ oppKey y = Ok key).
  { rewrite Hseen. split; [intros [H | H]; [set_solver | exact H] | auto]. }
  cbn [fst snd] in Hrun.
  destruct (decide (key ∈ seenPre)) as [Hin | Hnotin].
  - destruct (forEachOpp_spec _ _ _ Hrun) as (keptPost & Hout & Hsub & _).
    cbn [fst snd] in Hout.
    exists key, seenPre, keptPre, keptPost.
    repeat split; try assumption; try reflexivity.
    + intros _. exact Hout.
    + intros _. exact Hout.
    + intros Hnone. exfalso. apply Hiff in Hin as (y & Hy & Hyk). exact (Hnone y Hy Hyk).
  - destruct (forEachOpp_spec _ _ _ Hrun) as (keptPost & Hout & Hsub & _).
    cbn [fst snd] in Hout. rewrite <- app_assoc in Hout.
    exists key, seenPre, keptPre, keptPost.
    repeat split; try assumption; try reflexivity.
    + intros Hsome. exfalso. apply Hnotin, Hiff. exact Hsome.
    + intros (y & Hy & Hpair). exfalso. apply Hnotin, Hiff. exists y. split; [exact Hy |].
      rewrite <- Hkey. apply titleOrg_oppKey; [exact Hpair |].
      rewrite Hpair. eapply oppKey_titleOrg_ok. exact Hkey.
    + intros _. exact Hout.
Qed.

(** C1 as stated fails: the first opportunity with a given (title,
    organization) pair is not always kept.  Here [b1] and [b2] share the
    pair ("a", "b-c") and [a] has the different pair ("a-b", "c"); all
    three have the key string "a-b-c", so only [a] is kept and both [b1]
    and [b2] are dropped. *)
Lemma combineResults_drops_first_of_pair :
  let a := JObj [("id", JStr "1"); ("title", JStr "a-b"); ("organization", JStr "c")] in
  let b1 := JObj [("id", JStr "2"); ("title", JStr "a"); ("organization", JStr "b-c")] in
  let b2 := JObj [("id", JStr "3"); ("title", JStr "a"); ("organization", JStr "b-c")] in
  titleOrg b1 = titleOrg b2 /\
  titleOrg a <> titleOrg b1 /\
  combineResults [resultSet [a; b1; b2]] = Ok (resultSet [a]) /\
  b1 ∉ [a].
Proof.
  split; [reflexivity |]. split; [vm_compute; discriminate |].
  split; [vm_compute; reflexivity |].
  intros H. apply list_elem_of_singleton in H. discriminate H.
Qed.

(** ** searchAllSources *)

Lemma oppKey_fallbackOpportunity category location :
  oppKey (fallbackOpportunity category location)
    = Ok "Community Cleanup Event-Local Environmental Group".
Proof. reflexivity. Qed.

(** Merging copies of one fallback result set gives that result set. *)
Lemma combineResults_fallback_copies category location n :
  combineResults
    (replicate (S n) (resultSet [fallbackOpportunity category location]))
  = Ok (resultSet [fallbackOpportunity category location]).
Proof.
  unfold combineResults. cbn [replicate forEachResult].
  change (getProp (resultSet [fallbackOpportunity category location]) "opportunities")
    with (Ok (JArr [fallbackOpportunity category location])).
  result_simpl. cbn [truthy].
  rewrite (forEachOpp_cons_new _ _ _ _ (oppKey_fallbackOpportunity category location))
    by set_solver.
  cbn [forEachOpp fst snd app]. result_simpl.
  assert (H : forall m,
    forEachResult (replicate m (resultSet [fallbackOpportunity category location]))
      ({["Community Cleanup Event-Local Environmental Group"]} ∪ ∅,
       [fallbackOpportunity category location])
    = Ok ({["Community Cleanup Event-Local Environmental Group"]} ∪ ∅,
          [fallbackOpportunity category location])).
  { induction m as [| m IH]; [reflexivity |].
    cbn [replicate forEachResult].
    change (getProp (resultSet [fallbackOpportunity category location]) "opportunities")
      with (Ok (JArr [fallbackOpportunity category location])).
    result_simpl. cbn [truthy].
    rewrite (forEachOpp_cons_seen _ _ _ _ (oppKey_fallbackOpportunity category location))
      by set_solver.
    cbn [forEachOpp]. result_simpl. exact IH. }
  rewrite H. reflexivity.
Qed.

Lemma getProp_not_null v name :
  v <> JNull -> v <> JUndef -> exists x, getProp v name = Ok x.
Proof. destruct v; simpl; intros; try congruence; eauto. Qed.

(** C3: searchAllSources never throws, whatever the location, the filters
    and the behaviour of the three sources; and when every source call
    fails, it returns the fallback result set. *)
Theorem searchAllSources_never_raises
    (penv : ProcessEnv) (net : Net) (location : string) (filters : JSValue) :
  (exists result, searchAllSources penv net location filters = Ok result) /\
  (allFail net ->
   isSearchFilters filters = true ->
   searchAllSources penv net location filters
     = getFallbackData location (defaultArg (JObj []) filters) /\
   exists category,
     searchAllSources penv net location filters
       = Ok (resultSet [fallbackOpportunity category location])).
Proof.
  split.
  - unfold searchAllSources. cbv zeta.
    destruct (combineResults _) as [r | e] eqn:Hc; [eauto |].
    destruct filters; cbn [defaultArg] in *;
      try (unfold getFallbackData; cbn [getProp]; result_simpl; eauto).
    (* with null filters every search rejects and there is nothing to merge *)
    exfalso. lazy in Hc. discriminate Hc.
  - intros Hnet Hf.
    assert (Hdef : defaultArg (JObj []) (defaultArg (JObj []) filters)
                   = defaultArg (JObj []) filters) by (destruct filters; reflexivity).
    assert (Hf' : isSearchFilters (defaultArg (JObj []) filters) = true)
      by (destruct filters; try discriminate; exact Hf).
    assert (E : searchAllSources penv net location filters
                = getFallbackData location (defaultArg (JObj []) filters)).
    { unfold searchAllSources. cbv zeta.
      rewrite searchVolunteerMatch_fallback, searchJustServe_fallback,
        searchUnitedWay_fallback by assumption.
      rewrite Hdef.
      destruct (isSearchFilters_props _ Hf) as (props & -> & _).
      rewrite getFallbackData_object.
      match goal with |- context [fulfilledValues ?l] =>
        change (fulfilledValues l) with
          (replicate 3
             (resultSet [fallbackOpportunity (default JUndef (lookupOwn "category" props))
                           location]))
      end.
      rewrite combineResults_fallback_copies. reflexivity. }
    split; [exact E |]. rewrite E.
    destruct (isSearchFilters_props _ Hf) as (props & -> & _).
    rewrite getFallbackData_object. eauto.
Qed.

(** ** geocodeLocation *)

Lemma geocodeLocation_unfold g net address :
  geocodeLocation g net address =
    match net (geocodeRequestUrl address) JUndef ≫= geocodeTry g with
    | Ok (Some point) => Ok (Some point)
    | _ => Ok None
    end.
Proof.
  unfold geocodeLocation, geocodeRequestUrl.
  change (URLSearchParams (objectLiteral
            [("q", JStr address); ("format", JStr "json"); ("limit", JNum "1")] []))
    with (Ok [("q", address); ("format", "json"); ("limit", "1")]).
  result_simpl.
  destruct (net _ JUndef ≫= geocodeTry g) as [[p |] | e]; reflexivity.
Qed.

(** The [try] block on a non-empty array. *)
Lemma geocodeTry_array g first rest :
  geocodeTry g (JArr (first :: rest)) =
    latField ← getProp first "lat";
    la ← parseFloat latField;
    lonField ← getProp first "lon";
    lo ← parseFloat lonField;
    mret (Some {| lat := la; lng := lo |}).
Proof. reflexivity. Qed.

(** On a non-empty array whose first element has readable, convertible
    lat and lon fields the result is the parsed point. *)
Lemma geocodeLocation_point g net address first rest latField lonField la lo :
  net (geocodeRequestUrl address) JUndef = Ok (JArr (first :: rest)) ->
  getProp first "lat" = Ok latField ->
  getProp first "lon" = Ok lonField ->
  ToString latField = Ok la ->
  ToString lonField = Ok lo ->
  geocodeLocation g net address
    = Ok (Some {| lat := parseFloatString la; lng := parseFloatString lo |}).
Proof.
  intros Hnet Hlat Hlon Hla Hlo. rewrite geocodeLocation_unfold, Hnet.
  result_simpl. rewrite geocodeTry_array, Hlat. result_simpl.
  unfold parseFloat. rewrite Hla. result_simpl. rewrite Hlon. result_simpl.
  rewrite Hlo. reflexivity.
Qed.

(** C5: geocodeLocation never throws; when the call fails (transport,
    status or JSON parsing) or the provider returns an empty array it
    returns null; on a non-empty array it returns the first element's lat
    and lon, converted to strings and parsed by parseFloat. *)
Theorem geocodeLocation_never_raises
    (stringGtZero : string -> bool) (net : Net) (address : string) :
  (exists r, geocodeLocation stringGtZero net address = Ok r) /\
  (isOk (net (geocodeRequestUrl address) JUndef) = false ->
   geocodeLocation stringGtZero net address = Ok None) /\
  (net (geocodeRequestUrl address) JUndef = Ok (JArr []) ->
   geocodeLocation stringGtZero net address = Ok None) /\
  (forall first rest latField lonField la lo,
     net (geocodeRequestUrl address) JUndef = Ok (JArr (first :: rest)) ->
     getProp first "lat" = Ok latField ->
     getProp first "lon" = Ok lonField ->
     ToString latField = Ok la ->
     ToString lonField = Ok lo ->
     geocodeLocation stringGtZero net address
       = Ok (Some {| lat := parseFloatString la; lng := parseFloatString lo |})).
Proof.
  rewrite geocodeLocation_unfold.
  split; [| split; [| split]].
  - destruct (net _ JUndef ≫= geocodeTry stringGtZero) as [[p |] | e]; eauto.
  - intros H. destruct (net _ JUndef); [discriminate | reflexivity].
  - intros ->. reflexivity.
  - intros first rest latField lonField la lo Hnet Hlat Hlon Hla Hlo.
    rewrite <- geocodeLocation_unfold. eapply geocodeLocation_point; eassumption.
Qed.

(** C10, as the code has it: on a non-empty array whose first element is
    not null and whose lat and lon fields can be converted to strings,
    geocodeLocation returns a point, whose components are NaN when the
    field is missing and, for a string field, whatever parseFloat makes of
    it (NaN included); on an array, null is returned only when the array
    is empty, its first element is null or undefined, or the conversion of
    a coordinate field to a string throws. *)
Theorem geocodeLocation_on_array
    (stringGtZero : string -> bool) (net : Net) (address : string)
    (elems : list JSValue) :
  net (geocodeRequestUrl address) JUndef = Ok (JArr elems) ->
  (forall first rest,
     elems = first :: rest -> first <> JNull -> first <> JUndef ->
     exists latField lonField,
       getProp first "lat" = Ok latField /\
       getProp first "lon" = Ok lonField /\
       (forall la lo,
          ToString latField = Ok la -> ToString lonField = Ok lo ->
          geocodeLocation stringGtZero net address
            = Ok (Some {| lat := parseFloatString la; lng := parseFloatString lo |})) /\
       (latField = JUndef -> isOk (ToString lonField) = true ->
          exists lo, geocodeLocation stringGtZero net address
                       = Ok (Some {| lat := NaN; lng := lo |})) /\
       (lonField = JUndef -> isOk (ToString latField) = true ->
          exists la, geocodeLocation stringGtZero net address
                       = Ok (Some {| lat := la; lng := NaN |}))) /\
  (geocodeLocation stringGtZero net address = Ok None ->
     elems = [] \/
     exists first rest,
       elems = first :: rest /\
       (isOk (getProp first "lat") = false \/
        (exists latField, getProp first "lat" = Ok latField /\
                          isOk (ToString latField) = false) \/
        (exists lonField, getProp first "lon" = Ok lonField /\
                          isOk (ToString lonField) = false))).
Proof.
  intros Hnet. split.
  - intros first rest -> Hnull Hundef.
    destruct (getProp_not_null first "lat" Hnull Hundef) as [latField Hlat].
    destruct (getProp_not_null first "lon" Hnull Hundef) as [lonField Hlon].
    exists latField, lonField. split; [exact Hlat |]. split; [exact Hlon |].
    pose proof (geocodeLocation_point stringGtZero net address) as Hpoint.
    split; [| split].
    + intros la lo Hla Hlo. apply (Hpoint first rest latField lonField la lo); assumption.
    + intros -> Hok. destruct (ToString lonField) as [lo |] eqn:Hlo; [| discriminate].
      exists (parseFloatString lo).
      apply (Hpoint first rest JUndef lonField "undefined" lo); auto.
    + intros -> Hok. destruct (ToString latField) as [la |] eqn:Hla; [| discriminate].
      exists (parseFloatString la).
      apply (Hpoint first rest latField JUndef la "undefined"); auto.
  - rewrite geocodeLocation_unfold, Hnet. result_simpl.
    destruct elems as [| first rest]; [auto |]. intros H. right.
    exists first, rest. split; [reflexivity |].
    rewrite geocodeTry_array in H.
    destruct (getProp first "lat") as [latField |] eqn:Hlat; [| auto].
    right. cbn [mbind Result_bind] in H. unfold parseFloat in H.
    destruct (ToString latField) as [la |] eqn:Hla;
      [| left; exists latField; rewrite Hla; auto].
    cbn [mbind Result_bind mret Result_ret] in H.
    destruct (getProp first "lon") as [lonField |] eqn:Hlon.
    + cbn [mbind Result_bind] in H.
      destruct (ToString lonField) as [lo |] eqn:Hlo;
        [| right; exists lonField; rewrite Hlo; auto].
      discriminate H.
    + exfalso. destruct first; simpl in Hlat, Hlon; discriminate.
Qed.

(** C10 as stated fails: on the non-empty array [[null]] geocodeLocation
    returns null, not a point; reading [lat] from the null element throws
    and the error is caught. *)
Lemma geocodeLocation_null_element :
  geocodeLocation (fun _ => false) (fun _ _ => Ok (JArr [JNull])) "Arlington, VA" = Ok None.
Proof. vm_compute. reflexivity. Qed.

(** ** scrapeSite *)

Section ScraperProperties.

Variables Document Element : Type.
Variable parseFromString : string -> Document.
Variable querySelectorAll : Document -> string -> Result (list Element).
Variable querySelector : Element -> string -> Result (option Element).
Variable textContent : Element -> string.
Variable getAttribute : Element -> string -> option string.
Variable resolveURL : string -> string -> Result string.

Let forEachElement' :=
  forEachElement Element querySelector textContent getAttribute resolveURL.
Let buildAll' :=
  buildAll Element querySelector textContent getAttribute resolveURL.
Let loadElements' :=
  loadElements Document Element parseFromString querySelectorAll.
Let scrapeSite' :=
  scrapeSite Document Element parseFromString querySelectorAll querySelector
    textContent getAttribute resolveURL.

(** The loop pushes exactly the records that have a title, in order. *)
Lemma forEachElement_filter now url selectors elements index acc :
  forEachElement' now url selectors elements index acc =
    buildAll' now url selectors elements index
      ≫= fun records => Ok (acc ++ List.filter hasTitle records)%list.
Proof.
  revert index acc. induction elements as [| element rest IH]; intros index acc.
  - cbn. rewrite app_nil_r. reflexivity.
  - unfold forEachElement', buildAll'. cbn [forEachElement buildAll].
    destruct (buildOpportunity _ _ _ _ _ _ _ _ _ _) as [opportunity | e];
      cbn [mbind Result_bind]; [| reflexivity].
    fold forEachElement' buildAll'. rewrite IH.
    destruct (buildAll' now url selectors rest (S index)) as [records | e];
      cbn [mbind Result_bind mret Result_ret List.filter]; [| reflexivity].
    destruct (hasTitle opportunity); [rewrite <- app_assoc |]; reflexivity.
Qed.

Lemma filter_hasTitle records :
  Forall (fun o => opp_title o <> "") (List.filter hasTitle records).
Proof.
  apply Forall_forall. intros o Ho. apply list_elem_of_In, filter_In in Ho as [_ Ho].
  unfold hasTitle in Ho. intros E. rewrite E in Ho. discriminate Ho.
Qed.

(** C9: scrapeSite never throws; what it returns are the extracted
    records that have a non-empty title, in page order, every record
    with an empty title being left out; and when the fetch fails, the
    response body is not JSON, or anything else in the [try] block
    throws, it returns the empty list. *)
Theorem scrapeSite_keeps_titled_records
    (fetchPage : string -> Result Response) (now : nat -> Z)
    (url : string) (selectors : Selectors) :
  exists opportunities,
    scrapeSite' fetchPage now url selectors = Ok opportunities /\
    Forall (fun o => opp_title o <> "") opportunities /\
    (forall elements records,
       loadElements' fetchPage url selectors = Ok elements ->
       buildAll' now url selectors elements 0 = Ok records ->
       opportunities = List.filter hasTitle records) /\
    (isOk (fetchPage (proxyUrl +:+ encodeURIComponent url) ≫= json) = false ->
     opportunities = []) /\
    (isOk (elements ← loadElements' fetchPage url selectors;
           buildAll' now url selectors elements 0) = false ->
     opportunities = []).
Proof.
  unfold scrapeSite', scrapeSite. fold loadElements'.
  destruct (loadElements' fetchPage url selectors) as [elements | e] eqn:Hload;
    cbn [mbind Result_bind].
  - fold forEachElement'. rewrite forEachElement_filter. cbn [app].
    destruct (buildAll' now url selectors elements 0) as [records | e] eqn:Hall;
      cbn [mbind Result_bind].
    + exists (List.filter hasTitle records). split; [reflexivity |].
      split; [apply filter_hasTitle |]. split.
      { intros elements' records' [= <-]. rewrite Hall. intros [= <-]. reflexivity. }
      split; [| discriminate].
      intros Hfail. exfalso. unfold loadElements', loadElements in Hload.
      destruct (fetchPage _) as [response |]; [| discriminate].
      cbn [mbind Result_bind] in *. destruct (json response); discriminate.
    + exists []. split; [reflexivity |]. split; [constructor |]. split.
      { intros elements' records' [= <-]. rewrite Hall. discriminate. }
      auto.
  - exists []. split; [reflexivity |]. split; [constructor |]. split; [discriminate |].
    auto.
Qed.

End ScraperProperties.

(** ** combineResults over the store *)

Lemma frame_refl c st : frame c st st.
Proof. split; auto. Qed.

Lemma frame_trans c st1 st2 st3 : frame c st1 st2 -> frame c st2 st3 -> frame c st1 st3.
Proof.
  intros [H1 H1'] [H2 H2']. split.
  - intros l Hl. rewrite H2, H1 by exact Hl. reflexivity.
  - auto.
Qed.

Lemma frame_lookup_total c st st' (l : InPlace.loc) :
  frame c st st' -> l <> c -> st'.2 !!! l = st.2 !!! l.
Proof.
  intros [H _] Hl. unfold lookup_total, map_lookup_total. rewrite H by exact Hl. reflexivity.
Qed.

Lemma push_frame c opp (st : InPlace.State) s :
  frame c st (s, InPlace.push c opp st.2).
Proof.
  split; cbn [snd]; unfold InPlace.push.
  - intros l Hl. apply lookup_insert_ne. congruence.
  - intros _. rewrite lookup_insert_eq. eauto.
Qed.

Lemma visit_sim c opp st st' r :
  InPlace.visit c opp st = (st', r) ->
  frame c st st' /\ simulates r c st' (forEachOpp [opp] (accOf c st)).
Proof.
  unfold InPlace.visit, simulates. cbn [forEachOpp].
  destruct (oppKey opp) as [key | e]; cbn [mbind Result_bind accOf fst snd].
  - destruct (decide (key ∈ st.1)) as [Hin | Hout]; intros [= <- <-].
    + split; [apply frame_refl | reflexivity].
    + split; [apply push_frame |]. unfold accOf, InPlace.push. cbn [fst snd].
      rewrite lookup_total_insert_eq. reflexivity.
  - intros [= <- <-]. split; [apply frame_refl | reflexivity].
Qed.

Lemma forEachOpp_cons_bind opp rest acc :
  forEachOpp (opp :: rest) acc = forEachOpp [opp] acc ≫= forEachOpp rest.
Proof. apply (forEachOpp_app [opp] rest). Qed.

Lemma forEachList_sim c opps st st' r :
  InPlace.forEachList c opps st = (st', r) ->
  frame c st st' /\ simulates r c st' (forEachOpp opps (accOf c st)).
Proof.
  revert st. induction opps as [| opp rest IH]; intros st H.
  - injection H as <- <-. split; [apply frame_refl | reflexivity].
  - cbn [InPlace.forEachList] in H. rewrite forEachOpp_cons_bind.
    destruct (InPlace.visit c opp st) as [st1 [[] | e]] eqn:Hv;
      apply visit_sim in Hv as [Hf Hs]; unfold simulates in Hs; rewrite Hs;
      cbn [mbind Result_bind].
    + destruct (IH _ H) as [Hf' Hs']. split; [eapply frame_trans; eassumption | exact Hs'].
    + injection H as <- <-. split; [exact Hf | reflexivity].
Qed.

(** Iterating by index over an array other than [combined] visits the
    elements the array had at the start. *)
Lemma forEachIndex_list c l n k st :
  l <> c ->
  InPlace.forEachIndex c l n k st
    = InPlace.forEachList c (take n (drop k (st.2 !!! l))) st.
Proof.
  intros Hl. revert k st. induction n as [| n IH]; intros k st; [reflexivity |].
  cbn [InPlace.forEachIndex].
  destruct ((st.2 !!! l) !! k) as [opp |] eqn:Hk.
  - rewrite (drop_S _ _ _ Hk). cbn [take InPlace.forEachList].
    destruct (InPlace.visit c opp st) as [st1 [[] | e]] eqn:Hv; [| reflexivity].
    rewrite IH. apply visit_sim in Hv as [Hf _].
    rewrite (frame_lookup_total _ _ _ _ Hf Hl). reflexivity.
  - rewrite IH. apply lookup_ge_None in Hk.
    rewrite !drop_ge by lia. rewrite !take_nil. reflexivity.
Qed.

Lemma forEachResult_cons_bind result rest acc :
  forEachResult (result :: rest) acc = forEachResult [result] acc ≫= forEachResult rest.
Proof.
  cbn [forEachResult].
  destruct (getProp result "opportunities") as [o | e]; cbn [mbind Result_bind];
    [| reflexivity].
  destruct (truthy o); [| reflexivity].
  destruct o; try reflexivity.
  destruct (forEachOpp elems acc); reflexivity.
Qed.

Lemma forEachResult_resultSet opps acc :
  forEachResult [resultSet opps] acc = forEachOpp opps acc.
Proof.
  change (forEachResult [resultSet opps] acc)
    with (forEachOpp opps acc ≫= fun acc' => Ok acc').
  destruct (forEachOpp opps acc); reflexivity.
Qed.

Lemma visitResult_sim σ c r st st' res :
  (forall l, r = InPlace.WithArray l -> l <> c /\ st.2 !!! l = σ !!! l) ->
  InPlace.visitResult c r st = (st', res) ->
  frame c st st' /\
  simulates res c st' (forEachResult [InPlace.reify σ r] (accOf c st)).
Proof.
  intros Hinv H. destruct r as [l | v]; cbn [InPlace.visitResult InPlace.reify] in *.
  - destruct (Hinv l eq_refl) as [Hl Hsame].
    rewrite forEachIndex_list in H by exact Hl.
    rewrite take_ge, drop_0 in H by (rewrite drop_0; lia).
    apply forEachList_sim in H as [Hf Hs]. split; [exact Hf |].
    change (JObj [("opportunities", JArr (σ !!! l))]) with (resultSet (σ !!! l)).
    rewrite forEachResult_resultSet, <- Hsame. exact Hs.
  - cbn [forEachResult].
    destruct (getProp v "opportunities") as [o | e]; cbn [mbind Result_bind].
    + destruct (truthy o).
      * destruct o; try (injection H as <- <-; split; [apply frame_refl | reflexivity]).
        apply forEachList_sim in H as [Hf Hs]. split; [exact Hf |].
        destruct (forEachOpp elems (accOf c st)) as [acc1 | e];
          cbn [mbind Result_bind]; exact Hs.
      * injection H as <- <-. split; [apply frame_refl | reflexivity].
    + injection H as <- <-. split; [apply frame_refl | reflexivity].
Qed.

Lemma forEachResult_sim σ c rs st st' res :
  (forall l, l ∈ InPlace.refs rs -> l <> c /\ st.2 !!! l = σ !!! l) ->
  InPlace.forEachResult c rs st = (st', res) ->
  frame c st st' /\
  simulates res c st' (forEachResult (map (InPlace.reify σ) rs) (accOf c st)).
Proof.
  revert st. induction rs as [| r rest IH]; intros st Hinv H.
  - injection H as <- <-. split; [apply frame_refl | reflexivity].
  - cbn [InPlace.forEachResult map] in *. rewrite forEachResult_cons_bind.
    assert (Hhead : forall l, r = InPlace.WithArray l -> l <> c /\ st.2 !!! l = σ !!! l).
    { intros l ->. apply Hinv. unfold InPlace.refs. cbn [omap]. left. }
    assert (Htail : forall l, l ∈ InPlace.refs rest -> l <> c /\ st.2 !!! l = σ !!! l).
    { intros l Hin. apply Hinv. unfold InPlace.refs in *.
      destruct r; cbn [omap]; [right |]; exact Hin. }
    destruct (InPlace.visitResult c r st) as [st1 [[] | e]] eqn:Hv;
      apply (visitResult_sim σ) in Hv as [Hf Hs]; try exact Hhead;
      unfold simulates in Hs; rewrite Hs; cbn [mbind Result_bind].
    + destruct (IH st1) as [Hf' Hs']; [| exact H |].
      * intros l Hin. destruct (Htail l Hin) as [Hl Hsame]. split; [exact Hl |].
        rewrite (frame_lookup_total _ _ _ _ Hf Hl). exact Hsame.
      * split; [eapply frame_trans; eassumption | exact Hs'].
    + injection H as <- <-. split; [exact Hf | reflexivity].
Qed.

(** When no two visited opportunities have the same key and none of
    their keys was seen before, the inner loop keeps them all. *)
Lemma forEachOpp_distinct_keys l acc acc' :
  NoDup (map oppKey l) ->
  (forall y k, y ∈ l -> oppKey y = Ok k -> k ∉ acc.1) ->
  forEachOpp l acc = Ok acc' ->
  acc'.2 = (acc.2 ++ l)%list.
Proof.
  revert acc. induction l as [| opp l IH]; intros acc Hnd Hnew H.
  - injection H as <-. rewrite app_nil_r. reflexivity.
  - cbn [map] in Hnd. apply NoDup_cons in Hnd as [Hhead Hnd].
    cbn [forEachOpp] in H. destruct (oppKey opp) as [key | e] eqn:Hkey;
      cbn [mbind Result_bind] in H; [| discriminate].
    rewrite decide_False in H by (eapply Hnew; [left | exact Hkey]).
    apply IH in H; [| exact Hnd |].
    + rewrite H. cbn [snd]. rewrite <- app_assoc. reflexivity.
    + intros y k Hy Hk. cbn [fst]. intros Hin.
      apply elem_of_union in Hin as [Hin | Hin].
      * apply elem_of_singleton in Hin as ->. apply Hhead.
        rewrite <- Hk. apply list_elem_of_fmap_2. exact Hy.
      * eapply Hnew; [right; exact Hy | exact Hk | exact Hin].
Qed.

(** C7: combineResults puts the opportunities of the input arrays, in
    the order the sources are listed and in the order of each array, into
    one sequence (every opportunity when no two have the same key, and
    otherwise a subsequence in the same order); the array it returns is a
    newly allocated one, and every array that existed before the call
    holds after the call what it held before. *)
Theorem combineResults_allocates_and_preserves
    (σ : gmap InPlace.loc (list JSValue)) (apiResults : list InPlace.ResultRef) :
  (forall l, l ∈ InPlace.refs apiResults -> l ∈ dom σ) ->
  let inputs := map (InPlace.reify σ) apiResults in
  exists σ' r,
    InPlace.combineResults apiResults σ = (σ', r) /\
    (forall l, l ∈ dom σ -> σ' !! l = σ !! l) /\
    (wellShaped inputs = true -> isOk r = true) /\
    match r with
    | Ok c =>
        (c ∉ dom σ) /\
        exists combined,
          σ' !! c = Some combined /\
          combineResults inputs = Ok (resultSet combined) /\
          sublist combined (flatten inputs) /\
          (NoDup (map oppKey (flatten inputs)) -> combined = flatten inputs)
    | Throw e => combineResults inputs = Throw e
    end.
Proof.
  intros Hrefs inputs. unfold InPlace.combineResults, InPlace.alloc.
  set (c := fresh (dom σ)).
  assert (Hc : c ∉ dom σ) by apply is_fresh.
  destruct (InPlace.forEachResult c apiResults (∅, <[c:=[]]> σ)) as [st res] eqn:Hrun.
  apply (forEachResult_sim σ) in Hrun as [[Hother Halloc] Hsim].
  2:{ intros l Hl. assert (l <> c) by (intros ->; apply Hc, Hrefs, Hl).
      split; [assumption |]. cbn [snd]. apply lookup_total_insert_ne. congruence. }
  cbn [fst snd] in *.
  assert (Hacc0 : accOf c (∅, <[c:=[]]> σ) = (∅, [])).
  { unfold accOf. cbn [fst snd]. rewrite lookup_total_insert_eq. reflexivity. }
  rewrite Hacc0 in Hsim. fold inputs in Hsim.
  assert (Hkeep : forall l, l ∈ dom σ -> st.2 !! l = σ !! l).
  { intros l Hl. assert (l <> c) by (intros ->; exact (Hc Hl)).
    rewrite Hother by assumption. apply lookup_insert_ne. congruence. }
  assert (Htotal : wellShaped inputs = true -> isOk res = true).
  { intros Hw. destruct (forEachResult_total inputs (∅, []) Hw) as [acc' Hok].
    destruct res; [reflexivity |]. unfold simulates in Hsim. congruence. }
  destruct res as [[] | e]; unfold simulates in Hsim.
  - exists st.2, (Ok c). split; [reflexivity |]. split; [exact Hkeep |].
    split; [exact Htotal |]. split; [exact Hc |].
    exists (st.2 !!! c).
    split.
    { destruct Halloc as [x Hx]; [rewrite lookup_insert_eq; eauto |].
      rewrite Hx. f_equal. symmetry. apply lookup_total_correct. exact Hx. }
    split; [unfold combineResults; rewrite Hsim; reflexivity |].
    apply forEachResult_flatten in Hsim.
    split.
    + destruct (forEachOpp_spec _ _ _ Hsim) as (kept & Hkept & Hsub & _).
      cbn [accOf snd] in Hkept. rewrite app_nil_l in Hkept. rewrite Hkept. exact Hsub.
    + intros Hnd. apply (forEachOpp_distinct_keys _ _ _ Hnd) in Hsim.
      * exact Hsim.
      * intros y k _ _. cbn [fst]. set_solver.
  - exists st.2, (Throw e). split; [reflexivity |]. split; [exact Hkeep |].
    split; [exact Htotal |]. unfold combineResults. rewrite Hsim. reflexivity.
Qed.

(** ** The model at work *)

Example extractZipCode_found : extractZipCode "1600 someplace, 22201" = "22201".
Proof. reflexivity. Qed.

Example extractZipCode_default : extractZipCode "no zip here" = "22201".
Proof. reflexivity. Qed.

Example extractZipCode_word_boundary : extractZipCode "id1234567 zip 20001." = "20001".
Proof. reflexivity. Qed.

Example JSON_stringify_headers :
  JSON_stringify (JObj [("headers", JObj [("Authorization", JStr "Bearer k")])])
    = Some ("{" +:+ dquote +:+ "headers" +:+ dquote +:+ ":{" +:+ dquote +:+ "Authorization"
            +:+ dquote +:+ ":" +:+ dquote +:+ "Bearer k" +:+ dquote +:+ "}}").
Proof. reflexivity. Qed.

Example parseFloat_coordinate : parseFloat (JStr " -77.0910 W") = Ok (Decimal "-77.0910").
Proof. reflexivity. Qed.

Example parseFloat_missing : parseFloat JUndef = Ok NaN.
Proof. reflexivity. Qed.

(** A source returning the same (title, organization) twice and another
    source returning a different opportunity: two entries, in source
    order. *)
Example combineResults_two_sources :
  let e1 := JObj [("id", JStr "1"); ("title", JStr "Tutor"); ("organization", JStr "School")] in
  let e2 := JObj [("id", JStr "2"); ("title", JStr "Tutor"); ("organization", JStr "School")] in
  let v1 := JObj [("id", JStr "3"); ("title", JStr "Plant trees"); ("organization", JStr "Parks")] in
  combineResults [resultSet [e1; e2]; resultSet [v1]] = Ok (resultSet [e1; v1]).
Proof. vm_compute. reflexivity. Qed.

Example searchVolunteerMatch_passes_payload :
  let penv := {| VOLUNTEER_MATCH_API_KEY := Some "k"; JUSTSERVE_API_KEY := None;
                 UNITED_WAY_API_KEY := None |} in
  let net : Net := fun url _ =>
    if String.eqb url
         "https://api.volunteermatch.org/search?location=Arlington%2C+VA&radius=10&category=&resultsPerPage=20&distance=10"
    then Ok (resultSet []) else Throw NetworkError in
  searchVolunteerMatch penv net "Arlington, VA" (JObj [("distance", JNum "10")])
    = Ok (resultSet []).
Proof. vm_compute. reflexivity. Qed.

(** ** Instances *)

(** Two sources; the second repeats an opportunity of the first under
    another id. *)
Lemma combineResults_keeps_first_of_each_key_witness :
  let a := JObj [("id", JStr "1"); ("title", JStr "Tutor"); ("organization", JStr "School")] in
  let b := JObj [("id", JStr "2"); ("title", JStr "Plant trees"); ("organization", JStr "Parks")] in
  let a' := JObj [("id", JStr "3"); ("title", JStr "Tutor"); ("organization", JStr "School")] in
  wellShaped [resultSet [a; b]; resultSet [a']] = true /\
  exists combined, combineResults [resultSet [a; b]; resultSet [a']] = Ok (resultSet combined).
Proof.
  intros a b a'. split; [reflexivity |].
  destruct (combineResults_keeps_first_of_each_key
              [resultSet [a; b]; resultSet [a']] eq_refl) as (combined & H & _).
  exists combined. exact H.
Defined.

(** A first call at time 0 stored at time 40, a second call at time
    1000, a third at time 600040. *)
Lemma makeAPICall_caches_for_ten_minutes_witness :
  let env1 := {| nowCheck := 0;
                 fetched := Ok {| ok := true; status := 200; json := Ok (JArr []) |};
                 nowStore := 40 |} in
  let env2 := {| nowCheck := 1000; fetched := Throw NetworkError; nowStore := 1000 |} in
  let env3 := {| nowCheck := 600040;
                 fetched := Ok {| ok := false; status := 503; json := Throw SyntaxError |};
                 nowStore := 600100 |} in
  let call1 := makeAPICall constructor "https://example.org/a" JUndef env1 in
  let call2 := makeAPICall (apiAfter call1) "https://example.org/a" JUndef env2 in
  (cacheTimeout constructor = 600000 /\
   JUndef <> JNull /\
   cacheHit constructor (cacheKey "https://example.org/a" (JObj [])) 0 = None /\
   1000 - 40 < 600000 /\
   600000 <= 600040 - 40) /\
  length (requests call1 ++ requests call2) = 1%nat /\
  settled call2 = Ok (JArr []).
Proof.
  intros env1 env2 env3 call1 call2.
  assert (H1 : cacheTimeout constructor = 600000) by reflexivity.
  assert (H2 : JUndef <> JNull) by discriminate.
  assert (H3 : cacheHit constructor (cacheKey "https://example.org/a" (JObj [])) 0 = None)
    by reflexivity.
  assert (H4 : 1000 - 40 < 600000) by lia.
  assert (H5 : 600000 <= 600040 - 40) by lia.
  split; [repeat split; assumption |].
  destruct (makeAPICall_caches_for_ten_minutes constructor "https://example.org/a" JUndef
              env1 env2 env3 200 (JArr []) H1 H2 H3 eq_refl H4 H5)
    as (Hone & _ & Hsecond & _).
  split; [exact Hone | exact Hsecond].
Defined.

(** Every call fails; a search with a category filter. *)
Lemma search_failure_gives_fallback_witness :
  let penv := {| VOLUNTEER_MATCH_API_KEY := Some "k1"; JUSTSERVE_API_KEY := None;
                 UNITED_WAY_API_KEY := Some "k3" |} in
  let net : Net := fun _ _ => Throw (HttpError 500) in
  let filters := JObj [("category", JStr "education"); ("distance", JNum "10")] in
  allFail net /\
  isSearchFilters filters = true /\
  searchJustServe penv net "Arlington, VA 22201" filters
    = Ok (resultSet [fallbackOpportunity (JStr "education") "Arlington, VA 22201"]).
Proof.
  intros penv net filters.
  assert (Hnet : allFail net) by (intros url options; reflexivity).
  split; [exact Hnet |]. split; [reflexivity |].
  destruct (search_failure_gives_fallback penv net "Arlington, VA 22201" filters Hnet eq_refl)
    as (category & Hcat & _ & Hjs & _).
  injection Hcat as <-. exact Hjs.
Defined.

(** One array in memory, listed twice, and a result without
    opportunities. *)
Lemma combineResults_allocates_and_preserves_witness :
  let a := JObj [("title", JStr "Tutor"); ("organization", JStr "School")] in
  let σ : gmap InPlace.loc (list JSValue) := {[ 5%positive := [a] ]} in
  let apiResults := [InPlace.WithArray 5%positive; InPlace.Plain (JObj []);
                     InPlace.WithArray 5%positive] in
  (forall l, l ∈ InPlace.refs apiResults -> l ∈ dom σ) /\
  exists σ' r, InPlace.combineResults apiResults σ = (σ', r) /\
               σ' !! 5%positive = Some [a].
Proof.
  intros a σ apiResults.
  assert (Hrefs : forall l, l ∈ InPlace.refs apiResults -> l ∈ dom σ).
  { intros l Hl. apply elem_of_dom.
    change (InPlace.refs apiResults) with [5%positive; 5%positive] in Hl.
    apply elem_of_cons in Hl as [-> | Hl];
      [| apply list_elem_of_singleton in Hl as ->]; exists [a]; reflexivity. }
  split; [exact Hrefs |].
  destruct (combineResults_allocates_and_preserves σ apiResults Hrefs)
    as (σ' & r & Hrun & Hkeep & _).
  exists σ', r. split; [exact Hrun |].
  rewrite Hkeep; [reflexivity |]. apply elem_of_dom. exists [a]. reflexivity.
Defined.

(** A provider answer whose first match has no lat field and a lon
    field that is not a number. *)
Lemma geocodeLocation_on_array_witness :
  let net : Net := fun _ _ => Ok (JArr [JObj [("lon", JStr "east")]]) in
  net (geocodeRequestUrl "Arlington, VA") JUndef = Ok (JArr [JObj [("lon", JStr "east")]]) /\
  geocodeLocation (fun _ => false) net "Arlington, VA"
    = Ok (Some {| lat := NaN; lng := NaN |}).
Proof.
  intros net. split; [reflexivity |].
  destruct (geocodeLocation_on_array (fun _ => false) net "Arlington, VA"
              [JObj [("lon", JStr "east")]] eq_refl) as [Hpoint _].
  destruct (Hpoint (JObj [("lon", JStr "east")]) [] eq_refl)
    as (latField & lonField & Hlat & Hlon & Hparsed & _); [discriminate | discriminate |].
  injection Hlat as <-. injection Hlon as <-.
  exact (Hparsed "undefined" "east" eq_refl eq_refl).
Defined.

(** * Further properties *)

(** ** extractZipCode *)

Lemma string_app_nil_l (s : string) : "" +:+ s = s.
Proof. reflexivity. Qed.

Lemma string_app_cons c (s t : string) : String c s +:+ t = String c (s +:+ t).
Proof. reflexivity. Qed.

Lemma takeDigits_sound n s d after :
  takeDigits n s = Some (d, after) ->
  s = d +:+ after /\ String.length d = n /\ allDigits d = true.
Proof.
  revert s d after. induction n as [| n IH]; intros s d after H.
  - injection H as <- <-. auto.
  - cbn [takeDigits] in H. destruct s as [| c rest]; [discriminate |].
    destruct (isDigit c) eqn:Hc; [| discriminate].
    destruct (takeDigits n rest) as [[d' after'] |] eqn:Ht; [| discriminate].
    injection H as <- <-. destruct (IH _ _ _ Ht) as (-> & <- & Hd).
    split; [reflexivity |]. split; [reflexivity |].
    cbn [allDigits]. rewrite Hc, Hd. reflexivity.
Qed.

Lemma takeDigits_complete d after :
  allDigits d = true -> takeDigits (String.length d) (d +:+ after) = Some (d, after).
Proof.
  induction d as [| c d IH]; intros H; [reflexivity |].
  cbn [allDigits] in H. apply andb_prop in H as [Hc Hd].
  change (takeDigits (String.length (String c d)) (String c d +:+ after))
    with (if isDigit c
          then match takeDigits (String.length d) (d +:+ after) with
               | Some (d', after') => Some (String c d', after')
               | None => None
               end
          else None).
  rewrite Hc, (IH Hd). reflexivity.
Qed.

Lemma isDigit_isWordChar c : isDigit c = true -> isWordChar c = true.
Proof. unfold isWordChar. intros ->. reflexivity. Qed.

Lemma boundaryBefore_cons pw c pre :
  boundaryBefore pw (String c pre) = boundaryBefore (isWordChar c) pre.
Proof. destruct pre; reflexivity. Qed.

(** What the scan finds is the leftmost match. *)
Lemma zipMatch_Some pw s z :
  zipMatch pw s = Some z ->
  exists pre post,
    s = pre +:+ z +:+ post /\ zipAt pw pre z post /\
    forall pre' z' post',
      s = pre' +:+ z' +:+ post' -> zipAt pw pre' z' post' ->
      (String.length pre <= String.length pre')%nat.
Proof.
  revert pw. induction s as [| c rest IH]; intros pw H; [discriminate |].
  cbn [zipMatch] in H.
  destruct pw.
  - (* no boundary here *)
    apply IH in H as (pre & post & -> & (Hl & Hd & Hb & Hp) & Hleft).
    exists (String c pre), post. split; [reflexivity |]. split.
    + repeat split; try assumption. rewrite boundaryBefore_cons. exact Hb.
    + intros [| c' pre'] z' post' Hs (Hl' & Hd' & Hb' & Hp'); [discriminate Hb' |].
      rewrite ?string_app_nil_l, ?string_app_cons in Hs. injection Hs as <- Hs.
      cbn [String.length]. apply le_n_S. apply (Hleft pre' z' post' Hs).
      repeat split; try assumption. rewrite <- boundaryBefore_cons with (pw := true). exact Hb'.
  - destruct (takeDigits 5 (String c rest)) as [[d after] |] eqn:Ht.
    + destruct (startsWithWordChar after) eqn:Ha.
      * (* five digits followed by a word character *)
        apply IH in H as (pre & post & -> & (Hl & Hd & Hb & Hp) & Hleft).
        exists (String c pre), post. split; [reflexivity |]. split.
        { repeat split; try assumption. rewrite boundaryBefore_cons. exact Hb. }
        intros [| c' pre'] z' post' Hs (Hl' & Hd' & Hb' & Hp').
        { exfalso. rewrite ?string_app_nil_l, ?string_app_cons in Hs. rewrite Hs in Ht.
          rewrite <- Hl', takeDigits_complete in Ht by exact Hd'.
          injection Ht as <- <-. congruence. }
        rewrite ?string_app_nil_l, ?string_app_cons in Hs. injection Hs as <- Hs.
        cbn [String.length]. apply le_n_S. apply (Hleft pre' z' post' Hs).
        repeat split; try assumption.
        rewrite <- boundaryBefore_cons with (pw := false). exact Hb'.
      * injection H as <-. exists "", after.
        destruct (takeDigits_sound _ _ _ _ Ht) as (Hs & Hl & Hd).
        split; [exact Hs |]. split; [repeat split; assumption |].
        intros. cbn [String.length]. lia.
    + apply IH in H as (pre & post & -> & (Hl & Hd & Hb & Hp) & Hleft).
      exists (String c pre), post. split; [reflexivity |]. split.
      { repeat split; try assumption. rewrite boundaryBefore_cons. exact Hb. }
      intros [| c' pre'] z' post' Hs (Hl' & Hd' & Hb' & Hp').
      { exfalso. rewrite ?string_app_nil_l, ?string_app_cons in Hs. rewrite Hs in Ht.
        rewrite <- Hl', takeDigits_complete in Ht by exact Hd'. discriminate Ht. }
      rewrite ?string_app_nil_l, ?string_app_cons in Hs. injection Hs as <- Hs.
      cbn [String.length]. apply le_n_S. apply (Hleft pre' z' post' Hs).
      repeat split; try assumption.
      rewrite <- boundaryBefore_cons with (pw := false). exact Hb'.
Qed.

(** When the scan finds nothing there is no match. *)
Lemma zipMatch_None pw s :
  zipMatch pw s = None ->
  forall pre z post, s = pre +:+ z +:+ post -> ~ zipAt pw pre z post.
Proof.
  revert pw. induction s as [| c rest IH]; intros pw H pre z post Hs (Hl & Hd & Hb & Hp).
  - destruct pre; [| discriminate]. destruct z; discriminate.
  - cbn [zipMatch] in H.
    destruct pre as [| c' pre'].
    + rewrite ?string_app_nil_l, ?string_app_cons in Hs. destruct pw; [discriminate Hb |].
      rewrite Hs, <- Hl, takeDigits_complete, Hp in H by exact Hd. discriminate H.
    + rewrite ?string_app_nil_l, ?string_app_cons in Hs. injection Hs as <- Hs.
      assert (Hrest : zipMatch (isWordChar c) rest = None).
      { destruct pw; [exact H |].
        destruct (takeDigits 5 (String c rest)) as [[d after] |]; [| exact H].
        destruct (startsWithWordChar after); [exact H | discriminate H]. }
      apply (IH _ Hrest pre' z post Hs).
      repeat split; try assumption. rewrite <- boundaryBefore_cons with (pw := pw). exact Hb.
Qed.

(** X1: extractZipCode always returns five digits. *)
Theorem extractZipCode_five_digits (location : string) :
  String.length (extractZipCode location) = 5%nat /\
  allDigits (extractZipCode location) = true.
Proof.
  unfold extractZipCode. destruct (zipMatch false location) as [z |] eqn:H.
  - apply zipMatch_Some in H as (pre & post & _ & (Hl & Hd & _) & _). auto.
  - split; reflexivity.
Qed.

(** X2: extractZipCode returns the leftmost run of exactly five digits that
    has no letter, digit or underscore directly before or after it, and
    the default 22201 exactly when the location has no such run. *)
Theorem extractZipCode_leftmost_match (location : string) :
  (exists pre post,
     location = pre +:+ extractZipCode location +:+ post /\
     zipAt false pre (extractZipCode location) post /\
     forall pre' z' post',
       location = pre' +:+ z' +:+ post' -> zipAt false pre' z' post' ->
       (String.length pre <= String.length pre')%nat)
  \/
  (extractZipCode location = "22201" /\
   forall pre z post, location = pre +:+ z +:+ post -> ~ zipAt false pre z post).
Proof.
  unfold extractZipCode. destruct (zipMatch false location) as [z |] eqn:H.
  - left. exact (zipMatch_Some _ _ _ H).
  - right. split; [reflexivity | exact (zipMatch_None _ _ H)].
Qed.

(** ** mapCategoryToJustServe: the table *)

(** X3: each recognized label gives its catalog id, and every other string
    that is not the name of a member of Object.prototype gives the empty
    string. *)
Theorem mapCategoryToJustServe_catalog (category : string) :
  (forall id, In (category, id) justServeCatalog ->
     mapCategoryToJustServe category = Own (JNum (pretty id)) /\ 1 <= id <= 10) /\
  (~ In category (map fst justServeCatalog) ->
   ~ In category objectPrototypeNames ->
   mapCategoryToJustServe category = Own (JStr "")).
Proof.
  split.
  - intros id H. split; [apply mapCategoryToJustServe_recognized; exact H |].
    unfold justServeCatalog in H. simpl in H.
    repeat (destruct H as [[= <- <-] | H]; [lia |]). destruct H.
  - apply mapCategoryToJustServe_unrecognized.
Qed.

(** ** makeAPICall: what a call does to the cache and the network *)

(** X4: entries are never removed: after any call every key that was in the
    cache is still there, with the entry it had, unless it is the key of
    the call and the call stored the payload it returns. *)
Theorem makeAPICall_never_evicts
    (api : VolunteerAPI) (url : string) (options : JSValue) (env : Env)
    (key : string) (e : CacheEntry) :
  cache api !! key = Some e ->
  let call := makeAPICall api url options env in
  cache (apiAfter call) !! key = Some e \/
  (key = cacheKey url (defaultArg (JObj []) options) /\
   requests call <> [] /\
   exists d,
     settled call = Ok d /\
     cache (apiAfter call) !! key = Some {| data := d; timestamp := nowStore env |}).
Proof.
  intros He call. subst call. unfold makeAPICall.
  destruct (cacheHit _ _ _); [left; exact He |].
  destruct (getProp _ "headers"); [| left; exact He].
  destruct (fetched env) as [response |]; [| left; exact He].
  destruct (ok response); cbn [negb]; [| left; exact He].
  destruct (json response) as [d |]; [| left; exact He].
  cbn [apiAfter requests settled cacheSet cache].
  destruct (decide (key = cacheKey url (defaultArg (JObj []) options))) as [-> | Hne].
  - right. split; [reflexivity |]. split; [discriminate |].
    exists d. split; [reflexivity | apply lookup_insert_eq].
  - left. rewrite lookup_insert_ne by congruence. exact He.
Qed.

(** X5: a call sends at most one request; with options other than null it
    sends one exactly when the cache holds no live entry for its key, and
    the request is for the URL of the call. *)
Theorem makeAPICall_requests
    (api : VolunteerAPI) (url : string) (options : JSValue) (env : Env) :
  let call := makeAPICall api url options env in
  let key := cacheKey url (defaultArg (JObj []) options) in
  (requests call = [] \/
   requests call = [ {| reqUrl := url; reqOptions := defaultArg (JObj []) options |} ]) /\
  (options <> JNull ->
   (requests call = [] <-> exists d, cacheHit api key (nowCheck env) = Some d)) /\
  (forall d, cacheHit api key (nowCheck env) = Some d ->
     settled call = Ok d /\ apiAfter call = api).
Proof.
  intros call key. subst call key. unfold makeAPICall.
  destruct (cacheHit _ _ _) as [d |] eqn:Hhit.
  - split; [left; reflexivity |]. split.
    + intros _. split; [eauto | reflexivity].
    + intros d' [= <-]. split; reflexivity.
  - split; [| split].
    + destruct (getProp _ "headers"); [| left; reflexivity].
      destruct (fetched env) as [response |]; [| right; reflexivity].
      destruct (ok response); cbn [negb]; [| right; reflexivity].
      destruct (json response); right; reflexivity.
    + intros Hnull. split; [| intros [d Hd]; discriminate Hd].
      intros Hreq. exfalso.
      destruct (getProp _ "headers") eqn:Hh.
      * destruct (fetched env) as [response |]; [| discriminate].
        destruct (ok response); cbn [negb] in Hreq; [| discriminate].
        destruct (json response); discriminate.
      * destruct options; simpl in Hh; congruence.
    + intros d Hd. discriminate Hd.
Qed.

(** X6: an expired entry is not served when the refresh fails: the call
    throws, and the expired entry stays in the cache as it was. *)
Theorem makeAPICall_stale_entry_not_served
    (api : VolunteerAPI) (url : string) (options : JSValue) (env : Env)
    (e : CacheEntry) :
  let call := makeAPICall api url options env in
  let key := cacheKey url (defaultArg (JObj []) options) in
  cache api !! key = Some e ->
  cacheTimeout api <= nowCheck env - timestamp e ->
  fetchFails (fetched env) = true ->
  isOk (settled call) = false /\
  apiAfter call = api /\
  cache (apiAfter call) !! key = Some e.
Proof.
  intros call key He Hold Hfail.
  assert (Hmiss : cacheHit api key (nowCheck env) = None).
  { unfold cacheHit. rewrite He.
    destruct (Z.ltb_spec (nowCheck env - timestamp e) (cacheTimeout api)); [lia | reflexivity]. }
  destruct (makeAPICall_failure api url options env Hmiss Hfail) as (Hsame & Hthrow & _).
  subst call. rewrite Hsame. auto.
Qed.

(** X7: on a fresh instance every call with options other than null goes to
    the network: it sends exactly one request. *)
Theorem makeAPICall_fresh_instance (url : string) (options : JSValue) (env : Env) :
  options <> JNull ->
  requests (makeAPICall constructor url options env)
    = [ {| reqUrl := url; reqOptions := defaultArg (JObj []) options |} ].
Proof.
  intros Hnull. unfold makeAPICall.
  assert (Hmiss : forall key now, cacheHit constructor key now = None).
  { intros key now. unfold cacheHit, constructor. cbn [cache]. rewrite lookup_empty. reflexivity. }
  rewrite Hmiss.
  destruct (getProp (defaultArg (JObj []) options) "headers") eqn:Hh.
  - destruct (fetched env) as [response |]; [| reflexivity].
    destruct (ok response); cbn [negb]; [| reflexivity].
    destruct (json response); reflexivity.
  - exfalso. destruct options; simpl in Hh; congruence.
Qed.

(** ** combineResults: the merged list *)

Lemma keysMatch_empty : keysMatch (∅, []).
Proof.
  split; [constructor |]. intros k. cbn [fst snd]. split.
  - intros H. exfalso. set_solver.
  - intros (y & Hy & _). inversion Hy.
Qed.

Lemma forEachOpp_keysMatch l acc acc' :
  keysMatch acc -> forEachOpp l acc = Ok acc' -> keysMatch acc'.
Proof.
  revert acc. induction l as [| opp l IH]; intros acc Hinv H.
  - injection H as <-. exact Hinv.
  - cbn [forEachOpp] in H. destruct (oppKey opp) as [key | e] eqn:Hkey;
      cbn [mbind Result_bind] in H; [| discriminate].
    destruct (decide (key ∈ acc.1)) as [Hseen | Hnew]; [exact (IH _ Hinv H) |].
    apply (IH _) in H; [exact H |]. destruct Hinv as [Hnd Hkeys].
    split; cbn [fst snd].
    + rewrite map_app. apply NoDup_app. split; [exact Hnd |]. split.
      * intros r Hr Hr2. cbn [map] in Hr2. apply list_elem_of_singleton in Hr2 as ->.
        apply list_elem_of_fmap in Hr as (y & Hy & Hin). apply Hnew, Hkeys.
        exists y. split; [exact Hin | congruence].
      * cbn [map]. apply NoDup_singleton.
    + intros k. rewrite elem_of_union, elem_of_singleton, Hkeys. split.
      * intros [-> | (y & Hy & Hyk)].
        -- exists opp. split; [apply elem_of_app; right; left | exact Hkey].
        -- exists y. split; [apply elem_of_app; left; exact Hy | exact Hyk].
      * intros (y & Hy & Hyk). apply elem_of_app in Hy as [Hy | Hy].
        -- right. eauto.
        -- apply list_elem_of_singleton in Hy as ->. left. congruence.
Qed.

Lemma combineResults_run apiResults :
  wellShaped apiResults = true ->
  exists seen combined,
    forEachOpp (flatten apiResults) (∅, []) = Ok (seen, combined) /\
    combineResults apiResults = Ok (resultSet combined).
Proof.
  intros Hshape.
  destruct (forEachResult_total apiResults (∅, []) Hshape) as [[seen combined] Hrun].
  exists seen, combined. split; [apply forEachResult_flatten; exact Hrun |].
  unfold combineResults. rewrite Hrun. reflexivity.
Qed.

(** X8: no two opportunities of a merged list have the same key string. *)
Theorem combineResults_distinct_keys (apiResults : list JSValue) :
  wellShaped apiResults = true ->
  exists combined,
    combineResults apiResults = Ok (resultSet combined) /\
    NoDup (map oppKey combined) /\
    (forall i j x y,
       combined !! i = Some x -> combined !! j = Some y -> i <> j ->
       oppKey x <> oppKey y).
Proof.
  intros Hshape.
  destruct (combineResults_run apiResults Hshape) as (seen & combined & Hrun & Hres).
  exists combined. split; [exact Hres |].
  destruct (forEachOpp_keysMatch _ _ _ keysMatch_empty Hrun) as [Hnd _].
  cbn [snd] in Hnd. split; [exact Hnd |].
  intros i j x y Hi Hj Hne Heq. apply Hne.
  apply (NoDup_lookup _ i j (oppKey x) Hnd); rewrite list_lookup_fmap.
  - rewrite Hi. reflexivity.
  - rewrite Hj, Heq. reflexivity.
Qed.

(** X9: merging loses no key and invents nothing: every opportunity of the
    input has an opportunity with the same key in the merged list, every
    opportunity of the merged list comes from the input, and the merged
    list is no longer than the input. *)
Theorem combineResults_covers_input (apiResults : list JSValue) :
  wellShaped apiResults = true ->
  exists combined,
    combineResults apiResults = Ok (resultSet combined) /\
    (forall x, x ∈ flatten apiResults ->
       exists y, y ∈ combined /\ oppKey y = oppKey x) /\
    (forall y, y ∈ combined -> y ∈ flatten apiResults) /\
    (length combined <= length (flatten apiResults))%nat.
Proof.
  intros Hshape.
  destruct (combineResults_run apiResults Hshape) as (seen & combined & Hrun & Hres).
  exists combined. split; [exact Hres |].
  destruct (forEachOpp_keysMatch _ _ _ keysMatch_empty Hrun) as [_ Hkeys].
  destruct (forEachOpp_spec _ _ _ Hrun) as (kept & Hkept & Hsub & Hseen).
  cbn [fst snd] in *. rewrite app_nil_l in Hkept. subst kept.
  split; [| split].
  - intros x Hx.
    assert (Hk : exists k, oppKey x = Ok k).
    { unfold wellShaped in Hshape. apply andb_prop in Hshape as [_ Hall].
      rewrite forallb_forall in Hall. specialize (Hall x).
      destruct (oppKey x); [eauto |]. discriminate Hall. apply list_elem_of_In. exact Hx. }
    destruct Hk as [k Hk].
    assert (Hin : k ∈ seen) by (apply Hseen; right; eauto).
    apply Hkeys in Hin as (y & Hy & Hyk). exists y. split; [exact Hy | congruence].
  - intros y Hy. eapply elem_of_sublist; eassumption.
  - apply sublist_length. exact Hsub.
Qed.

Lemma forEachResult_app l1 l2 acc :
  forEachResult (l1 ++ l2) acc = forEachResult l1 acc ≫= forEachResult l2.
Proof.
  revert acc. induction l1 as [| r l1 IH]; intros acc; [reflexivity |].
  cbn [app]. rewrite (forEachResult_cons_bind r (l1 ++ l2)), (forEachResult_cons_bind r l1).
  destruct (forEachResult [r] acc) as [acc1 | e]; cbn [mbind Result_bind]; [apply IH | reflexivity].
Qed.

Lemma wellShaped_app l1 l2 :
  wellShaped (l1 ++ l2) = wellShaped l1 && wellShaped l2.
Proof.
  unfold wellShaped, flatten. rewrite forallb_app, map_app, concat_app, forallb_app.
  destruct (forallb shapedResult l1), (forallb shapedResult l2),
    (forallb (fun opp => isOk (oppKey opp)) (concat (map opportunitiesOf l1)));
    reflexivity.
Qed.

(** X10: merging a merged list again changes nothing. *)
Theorem combineResults_idempotent (apiResults : list JSValue) :
  wellShaped apiResults = true ->
  exists combined,
    combineResults apiResults = Ok (resultSet combined) /\
    combineResults [resultSet combined] = Ok (resultSet combined).
Proof.
  intros Hshape.
  destruct (combineResults_run apiResults Hshape) as (seen & combined & Hrun & Hres).
  exists combined. split; [exact Hres |].
  destruct (forEachOpp_keysMatch _ _ _ keysMatch_empty Hrun) as [Hnd Hkeys].
  cbn [fst snd] in *.
  assert (Hok : forallb (fun opp => isOk (oppKey opp)) combined = true).
  { apply forallb_forall. intros y Hy. apply list_elem_of_In in Hy.
    destruct (oppKey y) as [k |] eqn:Hk; [reflexivity |]. exfalso.
    destruct (forEachOpp_spec _ _ _ Hrun) as (kept & Hkept & Hsub & _).
    cbn [snd] in Hkept. rewrite app_nil_l in Hkept. subst kept.
    pose proof (elem_of_sublist _ _ _ Hy Hsub) as Hin.
    unfold wellShaped in Hshape. apply andb_prop in Hshape as [_ Hall].
    rewrite forallb_forall in Hall. specialize (Hall y (proj1 (list_elem_of_In _ _) Hin)).
    rewrite Hk in Hall. discriminate Hall. }
  unfold combineResults. rewrite forEachResult_resultSet.
  destruct (forEachOpp_total combined (∅, []) Hok) as [acc' Hrun2]. rewrite Hrun2.
  cbn [mbind Result_bind mret Result_ret].
  apply (forEachOpp_distinct_keys _ _ _ Hnd) in Hrun2.
  - rewrite Hrun2. reflexivity.
  - intros y k _ _. cbn [fst]. set_solver.
Qed.

(** X11: one malformed result spoils the merge: when a result is null or
    undefined, or its [opportunities] is truthy and not an array,
    combineResults throws a TypeError, whatever well-formed results stand
    before it and whatever stands after it. *)
Theorem combineResults_malformed_result (pre rest : list JSValue) (bad : JSValue) :
  wellShaped pre = true ->
  shapedResult bad = false ->
  combineResults (pre ++ bad :: rest) = Throw TypeError.
Proof.
  intros Hpre Hbad. unfold combineResults. rewrite forEachResult_app.
  destruct (forEachResult_total pre (∅, []) Hpre) as [acc ->].
  cbn [mbind Result_bind forEachResult]. unfold shapedResult in Hbad.
  destruct (getProp bad "opportunities") as [o | e] eqn:Hget.
  - cbn [mbind Result_bind]. destruct o; try discriminate Hbad;
      cbn [negb] in Hbad; apply negb_false_iff in Hbad; rewrite Hbad; reflexivity.
  - destruct bad; simpl in Hget; try discriminate Hget; injection Hget as <-; reflexivity.
Qed.

(** X13: a result without opportunities (the property missing or falsy, or an
    empty array) makes no difference to the merge. *)
Theorem combineResults_skips_empty_result (pre rest : list JSValue) (r : JSValue) :
  shapedResult r = true ->
  opportunitiesOf r = [] ->
  combineResults (pre ++ r :: rest) = combineResults (pre ++ rest).
Proof.
  intros Hshape Hempty. unfold combineResults. rewrite !forEachResult_app.
  destruct (forEachResult pre (∅, [])) as [acc | e]; cbn [mbind Result_bind]; [| reflexivity].
  cbn [forEachResult]. unfold shapedResult in Hshape. unfold opportunitiesOf in Hempty.
  destruct (getProp r "opportunities") as [o | e]; [| discriminate Hshape].
  cbn [mbind Result_bind].
  destruct o; try (cbn [negb] in Hshape; apply negb_true_iff in Hshape; rewrite Hshape; reflexivity).
  subst elems. reflexivity.
Qed.

Lemma forEachOpp_all_seen l acc :
  (forall y, y ∈ l -> exists k, oppKey y = Ok k /\ k ∈ acc.1) ->
  forEachOpp l acc = Ok acc.
Proof.
  induction l as [| opp l IH]; intros H; [reflexivity |].
  destruct (H opp) as (k & Hk & Hin); [left |].
  rewrite (forEachOpp_cons_seen _ _ _ _ Hk Hin). apply IH.
  intros y Hy. apply H. right. exact Hy.
Qed.

Lemma forEachResult_single_shaped r acc :
  shapedResult r = true ->
  forEachResult [r] acc = forEachOpp (opportunitiesOf r) acc.
Proof.
  intros Hshape. cbn [forEachResult]. unfold shapedResult in Hshape. unfold opportunitiesOf.
  destruct (getProp r "opportunities") as [o |]; [| discriminate Hshape].
  cbn [mbind Result_bind].
  destruct o; try (cbn [negb] in Hshape; apply negb_true_iff in Hshape; rewrite Hshape; reflexivity).
  cbn [truthy]. destruct (forEachOpp elems acc); reflexivity.
Qed.

(** X14: listing a result a second time changes nothing: all its
    opportunities have been seen. *)
Theorem combineResults_absorbs_repeats (pre mid rest : list JSValue) (r : JSValue) :
  wellShaped (pre ++ r :: mid) = true ->
  combineResults (pre ++ r :: mid ++ r :: rest) = combineResults (pre ++ r :: mid ++ rest).
Proof.
  intros Hshape.
  replace (pre ++ r :: mid ++ r :: rest)%list with ((pre ++ r :: mid) ++ r :: rest)%list
    by (rewrite <- app_assoc; reflexivity).
  replace (pre ++ r :: mid ++ rest)%list with ((pre ++ r :: mid) ++ rest)%list
    by (rewrite <- app_assoc; reflexivity).
  unfold combineResults.
  rewrite (forEachResult_app (pre ++ r :: mid) (r :: rest)),
    (forEachResult_app (pre ++ r :: mid) rest).
  destruct (forEachResult_total _ (∅, []) Hshape) as [acc Hrun]. rewrite Hrun.
  cbn [mbind Result_bind]. rewrite forEachResult_cons_bind.
  assert (Hr : shapedResult r = true).
  { rewrite wellShaped_app in Hshape. apply andb_prop in Hshape as [_ H].
    unfold wellShaped in H. apply andb_prop in H as [H _]. cbn [forallb] in H.
    apply andb_prop in H as [H _]. exact H. }
  rewrite (forEachResult_single_shaped r acc Hr), forEachOpp_all_seen; [reflexivity |].
  intros y Hy.
  assert (Hflat : y ∈ flatten (pre ++ r :: mid)).
  { unfold flatten. rewrite map_app, concat_app. cbn [map concat].
    apply elem_of_app. right. apply elem_of_app. left. exact Hy. }
  assert (Hk : exists k, oppKey y = Ok k).
  { unfold wellShaped in Hshape. apply andb_prop in Hshape as [_ Hall].
    rewrite forallb_forall in Hall. specialize (Hall y (proj1 (list_elem_of_In _ _) Hflat)).
    destruct (oppKey y); [eauto | discriminate Hall]. }
  destruct Hk as [k Hk]. exists k. split; [exact Hk |].
  apply forEachResult_flatten in Hrun.
  destruct (forEachOpp_spec _ _ _ Hrun) as (_ & _ & _ & Hseen).
  apply Hseen. right. eauto.
Qed.


(** X12: an opportunity whose title or organization cannot be read or
    converted to a string (a null entry, for instance) makes the whole
    merge throw, whatever was merged before it. *)
Theorem combineResults_malformed_opportunity
    (pre rest : list JSValue) (r : JSValue) (before after : list JSValue)
    (opp : JSValue) (e : Exn) :
  wellShaped pre = true ->
  getProp r "opportunities" = Ok (JArr (before ++ opp :: after)) ->
  forallb (fun o => isOk (oppKey o)) before = true ->
  oppKey opp = Throw e ->
  combineResults (pre ++ r :: rest) = Throw e.
Proof.
  intros Hpre Hget Hbefore Hopp. unfold combineResults. rewrite forEachResult_app.
  destruct (forEachResult_total pre (∅, []) Hpre) as [acc ->].
  cbn [mbind Result_bind forEachResult]. rewrite Hget. cbn [mbind Result_bind truthy].
  rewrite forEachOpp_app.
  destruct (forEachOpp_total before acc Hbefore) as [acc1 ->].
  cbn [mbind Result_bind forEachOpp]. rewrite Hopp. reflexivity.
Qed.

(** ** searchAllSources: what is merged *)

Lemma combineResults_Ok apiResults r :
  combineResults apiResults = Ok r ->
  exists seen combined,
    r = resultSet combined /\
    forEachOpp (flatten apiResults) (∅, []) = Ok (seen, combined).
Proof.
  unfold combineResults. intros H.
  destruct (forEachResult apiResults (∅, [])) as [[seen combined] |] eqn:E;
    cbn [mbind Result_bind mret Result_ret] in H; [| discriminate].
  injection H as <-. exists seen, combined. split; [reflexivity |].
  apply forEachResult_flatten. exact E.
Qed.

Lemma forEachOpp_kept_have_keys l acc acc' :
  forEachOpp l acc = Ok acc' ->
  Forall (fun opp => isOk (oppKey opp) = true) acc.2 ->
  Forall (fun opp => isOk (oppKey opp) = true) acc'.2.
Proof.
  revert acc. induction l as [| opp l IH]; intros acc H Hacc.
  - injection H as <-. exact Hacc.
  - cbn [forEachOpp] in H. destruct (oppKey opp) as [key |] eqn:Hkey;
      cbn [mbind Result_bind] in H; [| discriminate].
    destruct (decide (key ∈ acc.1)); [exact (IH _ H Hacc) |].
    apply (IH _ H). cbn [snd]. apply Forall_app. split; [exact Hacc |].
    repeat constructor. rewrite Hkey. reflexivity.
Qed.

(** X15: whatever the sources do, searchAllSources returns an object whose
    [opportunities] is an array of opportunities with pairwise different
    key strings; with [filters] null the array is empty. *)
Theorem searchAllSources_result_shape
    (penv : ProcessEnv) (net : Net) (location : string) (filters : JSValue) :
  (exists combined,
     searchAllSources penv net location filters = Ok (resultSet combined) /\
     NoDup (map oppKey combined) /\
     Forall (fun opp => isOk (oppKey opp) = true) combined) /\
  (filters = JNull ->
   searchAllSources penv net location filters = Ok (resultSet [])).
Proof.
  split.
  - unfold searchAllSources. cbv zeta.
    destruct (combineResults _) as [r | e] eqn:Hc.
    + apply combineResults_Ok in Hc as (seen & combined & -> & Hrun).
      exists combined. split; [reflexivity |].
      destruct (forEachOpp_keysMatch _ _ _ keysMatch_empty Hrun) as [Hnd _].
      split; [exact Hnd |].
      apply (forEachOpp_kept_have_keys _ _ _ Hrun). constructor.
    + destruct filters; cbn [defaultArg] in *;
        try (unfold getFallbackData; cbn [getProp]; cbn [mbind Result_bind mret Result_ret];
             eexists; split; [reflexivity |];
             split; [cbn [map]; apply NoDup_singleton | repeat constructor]).
      exfalso. lazy in Hc. discriminate Hc.
  - intros ->. lazy. reflexivity.
Qed.

Lemma searchVolunteerMatch_request penv net location filters :
  isSearchFilters filters = true ->
  exists params,
    searchVolunteerMatch penv net location filters
      = payloadOrFallback net
          (volunteerMatch_baseUrl +:+ "?" +:+ serializeParams params)
          (volunteerMatchOptions penv) location (defaultArg (JObj []) filters).
Proof.
  intros Hf. unfold searchVolunteerMatch. cbv zeta.
  destruct (isSearchFilters_props _ Hf) as (props & -> & Hprops).
  cbn [getProp spread]. result_simpl.
  match goal with |- context [URLSearchParams ?p] =>
    destruct (URLSearchParams_primitive p) as [params ->] end.
  { apply primitiveFields_objectLiteral; [| exact Hprops].
    repeat constructor; simpl;
      apply primitive_or_else; auto using primitiveFields_lookupOwn. }
  result_simpl. exists params. reflexivity.
Qed.

Lemma searchJustServe_request penv net location filters :
  isSearchFilters filters = true ->
  exists params,
    searchJustServe penv net location filters
      = payloadOrFallback net
          (justServe_baseUrl +:+ "/opportunities?" +:+ serializeParams params)
          (justServeOptions penv) location (defaultArg (JObj []) filters).
Proof.
  intros Hf. unfold searchJustServe. cbv zeta.
  destruct (isSearchFilters_props _ Hf) as (props & -> & Hprops).
  cbn [getProp spread]. result_simpl.
  destruct (ToString_primitive _ (primitiveFields_lookupOwn props "category" Hprops))
    as [key ->].
  result_simpl. destruct (memberToString_mapCategory key) as [id ->]. result_simpl.
  match goal with |- context [URLSearchParams ?p] =>
    destruct (URLSearchParams_primitive p) as [params ->] end.
  { apply primitiveFields_objectLiteral; [| exact Hprops].
    repeat constructor; simpl;
      apply primitive_or_else; auto using primitiveFields_lookupOwn. }
  result_simpl. exists params. reflexivity.
Qed.

Lemma searchUnitedWay_request penv net location filters :
  isSearchFilters filters = true ->
  exists params,
    searchUnitedWay penv net location filters
      = payloadOrFallback net
          (unitedWay_baseUrl +:+ "/volunteer-opportunities?" +:+ serializeParams params)
          (unitedWayOptions penv) location (defaultArg (JObj []) filters).
Proof.
  intros Hf. unfold searchUnitedWay. cbv zeta.
  destruct (isSearchFilters_props _ Hf) as (props & -> & Hprops).
  cbn [getProp spread]. result_simpl.
  match goal with |- context [URLSearchParams ?p] =>
    destruct (URLSearchParams_primitive p) as [params ->] end.
  { apply primitiveFields_objectLiteral; [| exact Hprops].
    repeat constructor; simpl;
      apply primitive_or_else; auto using primitiveFields_lookupOwn. }
  result_simpl. exists params. reflexivity.
Qed.

Lemma payloadOrFallback_Ok net url options location filters :
  isSearchFilters filters = true ->
  exists r, payloadOrFallback net url options location (defaultArg (JObj []) filters) = Ok r.
Proof.
  intros Hf. unfold payloadOrFallback. destruct (net url options); [eauto |].
  destruct (isSearchFilters_props _ Hf) as (props & -> & _).
  rewrite getFallbackData_object. eauto.
Qed.

(** X16: each search sends one request, to its own endpoint with its own
    header, and returns the payload of a successful call as it is
    (nothing in it is checked); a failed call gives the fallback data. *)
Theorem search_returns_payload_unchecked
    (penv : ProcessEnv) (net : Net) (location : string) (filters : JSValue) :
  isSearchFilters filters = true ->
  exists params1 params2 params3,
    let filters' := defaultArg (JObj []) filters in
    searchVolunteerMatch penv net location filters
      = payloadOrFallback net
          ("https://api.volunteermatch.org/search?" +:+ serializeParams params1)
          (JObj [("headers", JObj [("Authorization",
                    JStr ("Bearer " +:+ default "undefined" (VOLUNTEER_MATCH_API_KEY penv)))])])
          location filters' /\
    searchJustServe penv net location filters
      = payloadOrFallback net
          ("https://www.justserve.org/api/opportunities?" +:+ serializeParams params2)
          (JObj [("headers", JObj [("X-API-Key",
                    match JUSTSERVE_API_KEY penv with Some k => JStr k | None => JUndef end)])])
          location filters' /\
    searchUnitedWay penv net location filters
      = payloadOrFallback net
          ("https://api.unitedway.org/volunteer-opportunities?" +:+ serializeParams params3)
          (JObj [("headers", JObj [("Authorization",
                    JStr ("Bearer " +:+ default "undefined" (UNITED_WAY_API_KEY penv)))])])
          location filters'.
Proof.
  intros Hf.
  destruct (searchVolunteerMatch_request penv net location filters Hf) as [p1 H1].
  destruct (searchJustServe_request penv net location filters Hf) as [p2 H2].
  destruct (searchUnitedWay_request penv net location filters Hf) as [p3 H3].
  exists p1, p2, p3. cbv zeta. rewrite H1, H2, H3. repeat split.
Qed.

(** X17: searchAllSources merges exactly three result sets, in the order
    VolunteerMatch, JustServe, United Way; each is the payload of that
    source's call or, when the call failed, the fallback data; and when
    the merge throws the whole result is the fallback data. *)
Theorem searchAllSources_merges_three
    (penv : ProcessEnv) (net : Net) (location : string) (filters : JSValue) :
  isSearchFilters filters = true ->
  let filters' := defaultArg (JObj []) filters in
  exists params1 params2 params3 r1 r2 r3,
    payloadOrFallback net
      (volunteerMatch_baseUrl +:+ "?" +:+ serializeParams params1)
      (volunteerMatchOptions penv) location filters' = Ok r1 /\
    payloadOrFallback net
      (justServe_baseUrl +:+ "/opportunities?" +:+ serializeParams params2)
      (justServeOptions penv) location filters' = Ok r2 /\
    payloadOrFallback net
      (unitedWay_baseUrl +:+ "/volunteer-opportunities?" +:+ serializeParams params3)
      (unitedWayOptions penv) location filters' = Ok r3 /\
    searchAllSources penv net location filters =
      match combineResults [r1; r2; r3] with
      | Ok r => Ok r
      | Throw _ => getFallbackData location filters'
      end.
Proof.
  intros Hf filters'.
  assert (Hf' : isSearchFilters filters' = true)
    by (subst filters'; destruct filters; try discriminate; exact Hf).
  assert (Hdef : defaultArg (JObj []) filters' = filters')
    by (subst filters'; destruct filters; reflexivity).
  destruct (searchVolunteerMatch_request penv net location filters' Hf') as [p1 H1].
  destruct (searchJustServe_request penv net location filters' Hf') as [p2 H2].
  destruct (searchUnitedWay_request penv net location filters' Hf') as [p3 H3].
  rewrite Hdef in H1, H2, H3.
  destruct (payloadOrFallback_Ok net (volunteerMatch_baseUrl +:+ "?" +:+ serializeParams p1)
              (volunteerMatchOptions penv) location filters Hf) as [r1 E1].
  destruct (payloadOrFallback_Ok net
              (justServe_baseUrl +:+ "/opportunities?" +:+ serializeParams p2)
              (justServeOptions penv) location filters Hf) as [r2 E2].
  destruct (payloadOrFallback_Ok net
              (unitedWay_baseUrl +:+ "/volunteer-opportunities?" +:+ serializeParams p3)
              (unitedWayOptions penv) location filters Hf) as [r3 E3].
  fold filters' in E1, E2, E3.
  exists p1, p2, p3, r1, r2, r3. repeat split; try assumption.
  unfold searchAllSources. cbv zeta. fold filters'.
  rewrite H1, H2, H3, E1, E2, E3. reflexivity.
Qed.


(** X19: the requests of the three sources never have the same cache key,
    whatever their parameters and options: the entry one source's call
    stores is never served to another source's call. *)
Theorem source_cache_keys_distinct
    (query1 query2 query3 : string) (options1 options2 options3 : JSValue) :
  let key1 := cacheKey (volunteerMatch_baseUrl +:+ "?" +:+ query1) options1 in
  let key2 := cacheKey (justServe_baseUrl +:+ "/opportunities?" +:+ query2) options2 in
  let key3 := cacheKey (unitedWay_baseUrl +:+ "/volunteer-opportunities?" +:+ query3) options3 in
  key1 <> key2 /\ key1 <> key3 /\ key2 <> key3.
Proof.
  cbv zeta. unfold cacheKey, volunteerMatch_baseUrl, justServe_baseUrl, unitedWay_baseUrl.
  repeat split; intros H; rewrite ?string_app_cons in H; discriminate H.
Qed.

(** ** geocodeLocation: answers that are not a list of matches *)

(** X20: an answer that is falsy, true, a number, or an object without a
    [length] (an error object, say) gives null; an answer that is a
    non-empty string gives a point whose coordinates are both NaN. *)
Theorem geocodeLocation_not_a_list
    (stringGtZero : string -> bool) (net : Net) (address : string) (payload : JSValue) :
  net (geocodeRequestUrl address) JUndef = Ok payload ->
  ((truthy payload = false \/ payload = JBool true \/ (exists r, payload = JNum r) \/
    (exists props, payload = JObj props /\ lookupOwn "length" props = None)) ->
   geocodeLocation stringGtZero net address = Ok None) /\
  (forall c s, payload = JStr (String c s) ->
   geocodeLocation stringGtZero net address = Ok (Some {| lat := NaN; lng := NaN |})).
Proof.
  intros Hnet. rewrite geocodeLocation_unfold, Hnet. result_simpl. split.
  - intros [Hfalsy | [-> | [[r ->] | (props & -> & Hlen)]]].
    + unfold geocodeTry. rewrite Hfalsy. reflexivity.
    + reflexivity.
    + unfold geocodeTry. destruct (truthy (JNum r)); reflexivity.
    + unfold geocodeTry. cbn [truthy lengthGtZero]. rewrite Hlen. reflexivity.
  - intros c s ->. reflexivity.
Qed.

(** ** scrapeSite: the records *)

Lemma trimStart_no_leading s : startsWithWhiteSpace (trimStart s) = false.
Proof.
  induction s as [| c s IH]; [reflexivity |].
  cbn [trimStart]. destruct (isWhiteSpace c) eqn:Hc; [exact IH |].
  cbn [startsWithWhiteSpace]. exact Hc.
Qed.

Lemma trimEnd_no_leading s :
  startsWithWhiteSpace s = false -> startsWithWhiteSpace (trimEnd s) = false.
Proof.
  destruct s as [| c s]; [reflexivity |]. cbn [startsWithWhiteSpace trimEnd]. intros Hc.
  rewrite Hc. cbn [andb startsWithWhiteSpace]. exact Hc.
Qed.

Lemma trimEnd_no_trailing s : endsWithWhiteSpace (trimEnd s) = false.
Proof.
  induction s as [| c s IH]; [reflexivity |].
  cbn [trimEnd]. destruct (trimEnd s) as [| c' r] eqn:Hr.
  - destruct (isWhiteSpace c) eqn:Hc; cbn [andb String.eqb]; [reflexivity |].
    cbn [endsWithWhiteSpace]. exact Hc.
  - replace (isWhiteSpace c && String.eqb (String c' r) "") with false
      by (destruct (isWhiteSpace c); reflexivity).
    exact IH.
Qed.

Lemma trim_trimmed s : trimmed (trim s) = true.
Proof.
  unfold trimmed, trim.
  rewrite trimEnd_no_leading by apply trimStart_no_leading.
  rewrite trimEnd_no_trailing. reflexivity.
Qed.

Section ScraperRecords.

Variables Document Element : Type.
Variable parseFromString : string -> Document.
Variable querySelectorAll : Document -> string -> Result (list Element).
Variable querySelector : Element -> string -> Result (option Element).
Variable textContent : Element -> string.
Variable getAttribute : Element -> string -> option string.
Variable resolveURL : string -> string -> Result string.

(** What extractText returns has no white space at either end. *)
Lemma extractText_trimmed element selector s :
  extractText Element querySelector textContent element selector = Ok s ->
  trimmed s = true.
Proof.
  unfold extractText. destruct (noSelector selector); [intros [= <-]; reflexivity |].
  destruct (querySelector element _) as [[t |] |]; cbn [mbind Result_bind mret Result_ret];
    intros [= <-]; [apply trim_trimmed | reflexivity].
Qed.

Lemma buildOpportunity_fields now url selectors element index r :
  buildOpportunity Element querySelector textContent getAttribute resolveURL
    now url selectors element index = Ok r ->
  opp_id r = "scraped-" +:+ pretty now +:+ "-" +:+ pretty index /\
  trimmed (opp_title r) = true /\ trimmed (opp_organization r) = true /\
  trimmed (opp_description r) = true /\ trimmed (opp_date r) = true /\
  trimmed (opp_location r) = true.
Proof.
  unfold buildOpportunity. cbv zeta. intros H.
  destruct (extractText _ _ _ element (sel_title selectors)) as [t |] eqn:Ht;
    cbn [mbind Result_bind] in H; [| discriminate].
  destruct (extractText _ _ _ element (sel_organization selectors)) as [o |] eqn:Ho;
    cbn [mbind Result_bind] in H; [| discriminate].
  destruct (extractText _ _ _ element (sel_description selectors)) as [d |] eqn:Hd;
    cbn [mbind Result_bind] in H; [| discriminate].
  destruct (extractText _ _ _ element (sel_date selectors)) as [da |] eqn:Hda;
    cbn [mbind Result_bind] in H; [| discriminate].
  destruct (extractText _ _ _ element (sel_location selectors)) as [lo |] eqn:Hlo;
    cbn [mbind Result_bind] in H; [| discriminate].
  destruct (extractLink _ _ _ _ element (sel_link selectors) url) as [li |];
    cbn [mbind Result_bind mret Result_ret] in H; [| discriminate].
  injection H as <-. cbn.
  repeat split; eauto using extractText_trimmed.
Qed.

Lemma buildAll_records now url selectors elements index records :
  buildAll Element querySelector textContent getAttribute resolveURL
    now url selectors elements index = Ok records ->
  forall k r, records !! k = Some r ->
    exists element,
      elements !! k = Some element /\
      buildOpportunity Element querySelector textContent getAttribute resolveURL
        (now (index + k)%nat) url selectors element (index + k)%nat = Ok r.
Proof.
  revert index records. induction elements as [| element rest IH]; intros index records H k r Hk.
  - injection H as <-. discriminate Hk.
  - cbn [buildAll] in H.
    destruct (buildOpportunity _ _ _ _ _ _ _ _ _ _) as [r0 |] eqn:Hr0;
      cbn [mbind Result_bind] in H; [| discriminate].
    destruct (buildAll _ _ _ _ _ _ _ _ rest (S index)) as [more |] eqn:Hmore;
      cbn [mbind Result_bind mret Result_ret] in H; [| discriminate].
    injection H as <-. destruct k as [| k].
    + injection Hk as <-. exists element. rewrite Nat.add_0_r. split; [reflexivity | exact Hr0].
    + destruct (IH _ _ Hmore k r Hk) as (el & Hel & Hb). exists el.
      replace (index + S k)%nat with (S index + k)%nat by lia. split; [exact Hel | exact Hb].
Qed.

End ScraperRecords.

Lemma noDash_app_dash (x y : string) : noDash (x +:+ String "-" y) = false.
Proof.
  induction x as [| c x IH]; [reflexivity |].
  rewrite string_app_cons. cbn [noDash]. rewrite IH. apply andb_false_r.
Qed.

(** The part after the last hyphen determines itself. *)
Lemma app_dash_inj (a b d1 d2 : string) :
  noDash d1 = true -> noDash d2 = true ->
  a +:+ String "-" d1 = b +:+ String "-" d2 -> d1 = d2.
Proof.
  intros H1 H2. revert b. induction a as [| c a IH]; intros [| c' b] H;
    rewrite ?string_app_nil_l, ?string_app_cons in H.
  - injection H as H. exact H.
  - injection H as _ H. rewrite H, noDash_app_dash in H1. discriminate H1.
  - injection H as _ H. rewrite <- H, noDash_app_dash in H2. discriminate H2.
  - injection H as _ H. exact (IH _ H).
Qed.

Lemma noDash_pretty_N_go (x : N) (s : string) :
  noDash s = true -> noDash (pretty_N_go x s) = true.
Proof.
  revert s. induction (N.lt_wf_0 x) as [x _ IH]; intros s Hs.
  destruct (decide (x = 0)%N) as [-> | Hx]; [rewrite pretty_N_go_0; exact Hs |].
  rewrite pretty_N_go_step by lia. apply IH.
  - apply N.div_lt; lia.
  - cbn [noDash]. rewrite Hs, andb_true_r.
    unfold pretty_N_char. repeat case_match; reflexivity.
Qed.

Lemma noDash_pretty_nat (n : nat) : noDash (pretty n) = true.
Proof.
  unfold pretty, pretty_nat, pretty, pretty_N.
  destruct (decide (N.of_nat n = 0)%N); [reflexivity |].
  apply noDash_pretty_N_go. reflexivity.
Qed.

(** The id of a scraped record determines the index of its element. *)
Lemma scraped_id_inj (now1 now2 : Z) (i j : nat) :
  "scraped-" +:+ pretty now1 +:+ "-" +:+ pretty i
    = "scraped-" +:+ pretty now2 +:+ "-" +:+ pretty j ->
  i = j.
Proof.
  intros H. apply (inj (String.append "scraped-")) in H.
  change (pretty now1 +:+ String "-" (pretty i) = pretty now2 +:+ String "-" (pretty j)) in H.
  apply app_dash_inj in H; try apply noDash_pretty_nat.
  apply (inj pretty) in H. exact H.
Qed.

Lemma filter_sublist {A} (p : A -> bool) (l : list A) : sublist (List.filter p l) l.
Proof.
  induction l as [| x l IH]; [constructor |].
  cbn [List.filter]. destruct (p x); [apply sublist_skip | apply sublist_cons]; exact IH.
Qed.

Section ScraperOutput.

Variables Document Element : Type.
Variable parseFromString : string -> Document.
Variable querySelectorAll : Document -> string -> Result (list Element).
Variable querySelector : Element -> string -> Result (option Element).
Variable textContent : Element -> string.
Variable getAttribute : Element -> string -> option string.
Variable resolveURL : string -> string -> Result string.

Let buildAll' :=
  buildAll Element querySelector textContent getAttribute resolveURL.
Let scrapeSite' :=
  scrapeSite Document Element parseFromString querySelectorAll querySelector
    textContent getAttribute resolveURL.

(** What scrapeSite returns is empty or the titled records of the
    container elements. *)
Lemma scrapeSite_records fetchPage now url selectors :
  exists opportunities,
    scrapeSite' fetchPage now url selectors = Ok opportunities /\
    (opportunities = [] \/
     exists elements records,
       buildAll' now url selectors elements 0 = Ok records /\
       opportunities = List.filter hasTitle records).
Proof.
  unfold scrapeSite', scrapeSite.
  destruct (loadElements _ _ _ _ fetchPage url selectors) as [elements |];
    cbn [mbind Result_bind]; [| eauto].
  rewrite forEachElement_filter. cbn [app]. fold buildAll'.
  destruct (buildAll' now url selectors elements 0) as [records |] eqn:Hall;
    cbn [mbind Result_bind]; eauto 8.
Qed.

(** X21: the records scrapeSite returns have pairwise different ids. *)
Theorem scrapeSite_ids_unique
    (fetchPage : string -> Result Response) (now : nat -> Z)
    (url : string) (selectors : Selectors) :
  exists opportunities,
    scrapeSite' fetchPage now url selectors = Ok opportunities /\
    NoDup (map opp_id opportunities).
Proof.
  destruct (scrapeSite_records fetchPage now url selectors)
    as (opportunities & Hrun & [-> | (elements & records & Hall & ->)]).
  - exists []. split; [exact Hrun | constructor].
  - eexists. split; [exact Hrun |].
    apply (sublist_NoDup _ (map opp_id records));
      [| apply (fmap_sublist opp_id), filter_sublist].
    apply NoDup_alt. intros i j x Hi Hj. rewrite list_lookup_fmap in Hi, Hj.
    destruct (records !! i) as [ri |] eqn:Hri; [| discriminate].
    destruct (records !! j) as [rj |] eqn:Hrj; [| discriminate].
    injection Hi as <-. injection Hj as Hj.
    destruct (buildAll_records _ _ _ _ _ _ _ _ _ _ _ Hall i ri Hri) as (ei & _ & Hbi).
    destruct (buildAll_records _ _ _ _ _ _ _ _ _ _ _ Hall j rj Hrj) as (ej & _ & Hbj).
    apply buildOpportunity_fields in Hbi as [Hidi _].
    apply buildOpportunity_fields in Hbj as [Hidj _].
    rewrite Hidi, Hidj in Hj. apply scraped_id_inj in Hj. lia.
Qed.


(** X23: without a title selector (left out or empty) scrapeSite returns the
    empty list, whatever the page holds. *)
Theorem scrapeSite_without_title_selector
    (fetchPage : string -> Result Response) (now : nat -> Z)
    (url : string) (selectors : Selectors) :
  noSelector (sel_title selectors) = true ->
  scrapeSite' fetchPage now url selectors = Ok [].
Proof.
  intros Hno.
  destruct (scrapeSite_records fetchPage now url selectors)
    as (opportunities & Hrun & [-> | (elements & records & Hall & ->)]); [exact Hrun |].
  rewrite Hrun. f_equal.
  assert (Hnone : forall r, In r records -> hasTitle r = false).
  { intros r Hr. apply list_elem_of_In, list_elem_of_lookup in Hr as [k Hk].
    destruct (buildAll_records _ _ _ _ _ _ _ _ _ _ _ Hall k r Hk) as (e & _ & Hb).
    unfold buildOpportunity in Hb. cbv zeta in Hb.
    assert (Ht : extractText Element querySelector textContent e (sel_title selectors) = Ok "")
      by (unfold extractText; rewrite Hno; reflexivity).
    rewrite Ht in Hb. cbn [mbind Result_bind] in Hb.
    repeat match type of Hb with
    | context [mbind _ ?m] =>
        destruct m; cbn [mbind Result_bind mret Result_ret] in Hb; [| discriminate Hb]
    end.
    injection Hb as <-. reflexivity. }
  clear Hall Hrun. induction records as [| r records IH]; [reflexivity |].
  cbn [List.filter]. rewrite (Hnone r) by (left; reflexivity).
  apply IH. intros r' Hr'. apply Hnone. right. exact Hr'.
Qed.

End ScraperOutput.

(** ** Instances of the further properties *)

Lemma makeAPICall_never_evicts_witness :
  let e := {| data := JStr "old"; timestamp := 5 |} in
  let api := {| cache := {[ "u{}" := e ]}; cacheTimeout := 600000 |} in
  let env := {| nowCheck := 10;
                fetched := Ok {| ok := true; status := 200; json := Ok (JStr "new") |};
                nowStore := 12 |} in
  cache api !! "u{}" = Some e /\
  exists e', cache (apiAfter (makeAPICall api "v" JUndef env)) !! "u{}" = Some e'.
Proof.
  intros e api env.
  assert (H : cache api !! "u{}" = Some e) by reflexivity.
  split; [exact H |].
  destruct (makeAPICall_never_evicts api "v" JUndef env "u{}" e H)
    as [Hkept | (_ & _ & d & _ & Hnew)]; eauto.
Defined.

Lemma makeAPICall_stale_entry_not_served_witness :
  let e := {| data := JStr "old"; timestamp := 5 |} in
  let api := {| cache := {[ "u{}" := e ]}; cacheTimeout := 600000 |} in
  let env := {| nowCheck := 700000; fetched := Throw NetworkError; nowStore := 700001 |} in
  (cache api !! "u{}" = Some e /\ 600000 <= 700000 - 5 /\
   fetchFails (fetched env) = true) /\
  isOk (settled (makeAPICall api "u" JUndef env)) = false.
Proof.
  intros e api env.
  assert (H1 : cache api !! cacheKey "u" (defaultArg (JObj []) JUndef) = Some e) by reflexivity.
  assert (H2 : cacheTimeout api <= nowCheck env - timestamp e) by (simpl; lia).
  assert (H3 : fetchFails (fetched env) = true) by reflexivity.
  split; [split; [exact H1 | split; [lia | exact H3]] |].
  exact (proj1 (makeAPICall_stale_entry_not_served api "u" JUndef env e H1 H2 H3)).
Defined.

Lemma makeAPICall_fresh_instance_witness :
  let env := {| nowCheck := 0; fetched := Throw NetworkError; nowStore := 0 |} in
  JObj [("headers", JObj [])] <> JNull /\
  length (requests (makeAPICall constructor "u" (JObj [("headers", JObj [])]) env)) = 1%nat.
Proof.
  intros env.
  assert (H : JObj [("headers", JObj [])] <> JNull) by discriminate.
  split; [exact H |].
  rewrite (makeAPICall_fresh_instance "u" (JObj [("headers", JObj [])]) env H). reflexivity.
Defined.

Lemma combineResults_distinct_keys_witness :
  wellShaped sampleResults = true /\
  exists combined,
    combineResults sampleResults = Ok (resultSet combined) /\ NoDup (map oppKey combined).
Proof.
  split; [reflexivity |].
  destruct (combineResults_distinct_keys sampleResults eq_refl) as (combined & H & Hnd & _).
  exists combined. split; assumption.
Defined.

Lemma combineResults_covers_input_witness :
  wellShaped sampleResults = true /\
  exists combined,
    combineResults sampleResults = Ok (resultSet combined) /\
    (length combined <= length (flatten sampleResults))%nat.
Proof.
  split; [reflexivity |].
  destruct (combineResults_covers_input sampleResults eq_refl) as (combined & H & _ & _ & Hlen).
  exists combined. split; assumption.
Defined.

Lemma combineResults_idempotent_witness :
  wellShaped sampleResults = true /\
  exists combined,
    combineResults sampleResults = Ok (resultSet combined) /\
    combineResults [resultSet combined] = Ok (resultSet combined).
Proof.
  split; [reflexivity |]. exact (combineResults_idempotent sampleResults eq_refl).
Defined.

Lemma combineResults_malformed_result_witness :
  wellShaped [resultSet [sampleTutor]] = true /\
  shapedResult JNull = false /\
  combineResults ([resultSet [sampleTutor]] ++ JNull :: [resultSet [sampleTrees]])
    = Throw TypeError.
Proof.
  split; [reflexivity |]. split; [reflexivity |].
  exact (combineResults_malformed_result [resultSet [sampleTutor]] [resultSet [sampleTrees]]
           JNull eq_refl eq_refl).
Defined.

Lemma combineResults_malformed_opportunity_witness :
  (wellShaped [resultSet [sampleTrees]] = true /\
   getProp (resultSet [sampleTutor; JNull]) "opportunities"
     = Ok (JArr ([sampleTutor] ++ JNull :: [])) /\
   forallb (fun o => isOk (oppKey o)) [sampleTutor] = true /\
   oppKey JNull = Throw TypeError) /\
  combineResults ([resultSet [sampleTrees]] ++ resultSet [sampleTutor; JNull] :: [])
    = Throw TypeError.
Proof.
  split; [repeat split |].
  exact (combineResults_malformed_opportunity [resultSet [sampleTrees]] []
           (resultSet [sampleTutor; JNull]) [sampleTutor] [] JNull TypeError
           eq_refl eq_refl eq_refl eq_refl).
Defined.

Lemma combineResults_skips_empty_result_witness :
  (shapedResult (JObj [("opportunities", JStr "")]) = true /\
   opportunitiesOf (JObj [("opportunities", JStr "")]) = []) /\
  combineResults ([resultSet [sampleTutor]] ++ JObj [("opportunities", JStr "")] :: [])
    = combineResults ([resultSet [sampleTutor]] ++ []).
Proof.
  split; [split; reflexivity |].
  exact (combineResults_skips_empty_result [resultSet [sampleTutor]] []
           (JObj [("opportunities", JStr "")]) eq_refl eq_refl).
Defined.

Lemma combineResults_absorbs_repeats_witness :
  wellShaped ([] ++ resultSet [sampleTutor] :: [resultSet [sampleTrees]]) = true /\
  combineResults ([] ++ resultSet [sampleTutor] :: [resultSet [sampleTrees]]
                     ++ resultSet [sampleTutor] :: [])
    = combineResults ([] ++ resultSet [sampleTutor] :: [resultSet [sampleTrees]] ++ []).
Proof.
  split; [reflexivity |].
  exact (combineResults_absorbs_repeats [] [resultSet [sampleTrees]] []
           (resultSet [sampleTutor]) eq_refl).
Defined.

Lemma search_returns_payload_unchecked_witness :
  let net : Net := fun _ _ => Ok (JStr "not a result set") in
  isSearchFilters sampleFilters = true /\
  searchVolunteerMatch samplePenv net "Arlington, VA" sampleFilters
    = Ok (JStr "not a result set").
Proof.
  intros net. split; [reflexivity |].
  destruct (search_returns_payload_unchecked samplePenv net "Arlington, VA" sampleFilters eq_refl)
    as (p1 & p2 & p3 & H1 & _).
  rewrite H1. reflexivity.
Defined.

Lemma searchAllSources_merges_three_witness :
  let net : Net := fun _ _ => Throw NetworkError in
  isSearchFilters sampleFilters = true /\
  exists r1 r2 r3,
    searchAllSources samplePenv net "Arlington, VA" sampleFilters =
      match combineResults [r1; r2; r3] with
      | Ok r => Ok r
      | Throw _ => getFallbackData "Arlington, VA" sampleFilters
      end.
Proof.
  intros net. split; [reflexivity |].
  destruct (searchAllSources_merges_three samplePenv net "Arlington, VA" sampleFilters eq_refl)
    as (p1 & p2 & p3 & r1 & r2 & r3 & _ & _ & _ & H).
  exists r1, r2, r3. exact H.
Defined.


Lemma geocodeLocation_not_a_list_witness :
  let net : Net := fun _ _ => Ok (JObj [("error", JStr "Unable to geocode")]) in
  net (geocodeRequestUrl "nowhere") JUndef = Ok (JObj [("error", JStr "Unable to geocode")]) /\
  geocodeLocation (fun _ => true) net "nowhere" = Ok None.
Proof.
  intros net. split; [reflexivity |].
  destruct (geocodeLocation_not_a_list (fun _ => true) net "nowhere"
              (JObj [("error", JStr "Unable to geocode")]) eq_refl) as [Hnull _].
  apply Hnull. right. right. right.
  exists [("error", JStr "Unable to geocode")]. split; reflexivity.
Defined.

(** A page of two containers, scraped without a title selector. *)
Lemma scrapeSite_without_title_selector_witness :
  let selectors :=
    {| sel_container := Some ".card"; sel_title := None;
       sel_organization := Some ".org"; sel_description := None; sel_date := None;
       sel_location := None; sel_link := None |} in
  let fetchPage : string -> Result Response := fun _ =>
    Ok {| ok := true; status := 200;
          json := Ok (JObj [("contents", JStr "<html></html>")]) |} in
  noSelector (sel_title selectors) = true /\
  scrapeSite unit nat (fun _ => tt) (fun _ _ => Ok [1%nat; 2%nat])
    (fun _ _ => Ok (Some 0%nat)) (fun _ => " Food bank ") (fun _ _ => None)
    (fun href _ => Ok href) fetchPage (fun _ => 1700000000000) "https://example.org/list"
    selectors = Ok [].
Proof.
  intros selectors fetchPage. split; [reflexivity |].
  exact (scrapeSite_without_title_selector unit nat (fun _ => tt) (fun _ _ => Ok [1%nat; 2%nat])
           (fun _ _ => Ok (Some 0%nat)) (fun _ => " Food bank ") (fun _ _ => None)
           (fun href _ => Ok href) fetchPage (fun _ => 1700000000000)
           "https://example.org/list" selectors eq_refl).
Defined.
